(** * Wayfire scene graph: a shallow embedding of [src/core/scene.cpp]
      and of the layer naming of [plugins/ipc/stipc.cpp].

    Nodes live in a heap indexed by node identities; [node_ptr] values of
    the C++ code are identities, so that two references to one node are
    the same identity and pointer comparison is identity comparison. *)

From stdpp Require Import base option list gmap sets strings.
From Stdlib Require Import ZArith Lia.

Local Open Scope nat_scope.

(** ** Data model *)

Module Scene.

(** A [node_ptr] (or a raw [node_t*]): the identity of a heap cell. *)
Abbreviation node_id := positive.

(** [enum class iteration]. *)
Inductive iteration := STOP | SKIP_CHILDREN | ALL.

(** Modelled from the spec: [enum class keyboard_action] (declared in a
    header that is not part of the sources); a handler answers CONSUME or
    lets the event pass through. *)
Inductive keyboard_action := CONSUME | PASS_THROUGH.

(** [root_node_t::priv_t]: the focus tracker's private state. *)
Record priv_t := mk_priv { active_keyboard_nodes : list node_id }.

(** The dynamic class of a node. [output_node_t] carries its two fixed
    regions, [root_node_t] its array of layer nodes (null until the
    constructor fills it) and its private state. *)
Inductive node_class :=
| inner_node_t
| floating_inner_node_t
| output_node_t (_static dynamic : option node_id)
| root_node_t (layers : list (option node_id)) (priv : priv_t)
| view_node_t
| generic_node_t.

(** A heap cell. [children] is only meaningful for the inner classes. *)
Record node_t := mk_node {
  _is_structure : bool;
  _parent : option node_id;
  (** Modelled from the spec: the "mutable capability flag set" that
      [node_t::flags()] returns; the accessor is declared in a header
      outside the sources. *)
  flags : Z;
  children : list node_id;
  cls : node_class
}.

Abbreviation heap := (gmap positive node_t).

Definition with_parent (p : node_id) (nd : node_t) : node_t :=
  mk_node (_is_structure nd) (Some p) (flags nd) (children nd) (cls nd).

Definition with_children (l : list node_id) (nd : node_t) : node_t :=
  mk_node (_is_structure nd) (_parent nd) (flags nd) l (cls nd).

Definition with_cls (c : node_class) (nd : node_t) : node_t :=
  mk_node (_is_structure nd) (_parent nd) (flags nd) (children nd) c.

(** [this->priv = ...] on a root node. *)
Definition with_priv (p : priv_t) (nd : node_t) : node_t :=
  match cls nd with
  | root_node_t layers _ => with_cls (root_node_t layers p) nd
  | _ => nd
  end.

(** Which classes derive from [inner_node_t]. *)
Definition is_inner (c : node_class) : bool :=
  match c with
  | inner_node_t | floating_inner_node_t | output_node_t _ _ | root_node_t _ _ => true
  | view_node_t | generic_node_t => false
  end.

(** Which classes derive from [floating_inner_node_t]. *)
Definition is_floating (c : node_class) : bool :=
  match c with
  | floating_inner_node_t | root_node_t _ _ => true
  | _ => false
  end.

Global Instance iteration_eq_dec : EqDecision iteration.
Proof. solve_decision. Defined.
Global Instance keyboard_action_eq_dec : EqDecision keyboard_action.
Proof. solve_decision. Defined.

(** ** [find_node_at] *)

Section find_node.
(** [wf::pointf_t] and [input_node_t] are opaque to the inner nodes,
    which only pass them along. What a leaf answers depends on its
    geometry, defined outside the sources, and is left to
    [leaf_find_node_at]. *)
Context {pointf_t input_node_t : Type}.
Variable leaf_find_node_at : node_id → node_t → pointf_t → option input_node_t.

(** The loop of [inner_node_t::find_node_at] over the children. *)
Fixpoint find_in_children (rec : node_id → option (option input_node_t))
    (chs : list node_id) : option (option input_node_t) :=
  match chs with
  | [] => Some None
  | ch :: rest =>
      child_node ← rec ch;
      match child_node with
      | Some r => Some (Some r)
      | None => find_in_children rec rest
      end
  end.

(** Virtual dispatch of [find_node_at]; the inner classes run
    [inner_node_t::find_node_at]. The outer [option] is [None] when a
    pointer does not name a node or when the recursion budget is used up
    (a cyclic graph). *)
Fixpoint find_node_at (σ : heap) (fuel : nat) (n : node_id) (at_ : pointf_t)
    : option (option input_node_t) :=
  match fuel with
  | O => None
  | S fuel =>
      nd ← σ !! n;
      if is_inner (cls nd)
      then find_in_children (λ ch, find_node_at σ fuel ch at_) (children nd)
      else Some (leaf_find_node_at n nd at_)
  end.
End find_node.

(** ** The visitor protocol *)

(** [visitor_t]: the three callbacks, over a visitor state [V]. A
    callback receives the node pointer and the node it points to. *)
Record visitor_t (V : Type) := mk_visitor {
  inner_node : node_id → node_t → V → iteration * V;
  view_node : node_id → node_t → V → iteration * V;
  generic_node : node_id → node_t → V → iteration * V
}.
Arguments mk_visitor {V} _ _ _.
Arguments inner_node {V} _ _ _ _.
Arguments view_node {V} _ _ _ _.
Arguments generic_node {V} _ _ _ _.

Section visit.
Context {V : Type}.
Variable visitor : visitor_t V.

(** The [for (auto& ch : get_children())] loop of [inner_node_t::visit]. *)
Fixpoint visit_children (rec : node_id → V → option (iteration * V))
    (chs : list node_id) (v : V) : option (iteration * V) :=
  match chs with
  | [] => Some (ALL, v)
  | ch :: rest =>
      r ← rec ch v;
      match r.1 with
      | STOP => Some (STOP, r.2)
      | _ => visit_children rec rest r.2
      end
  end.

(** Modelled from the spec: the [visit] of a view node and of any other
    leaf, which are defined outside the sources. By the "three-way
    dispatch" the node is handed to [view_node], respectively to the
    [generic_node] fallback, and the callback's answer is returned. *)
Definition visit_leaf (n : node_id) (nd : node_t) (v : V) : iteration * V :=
  match cls nd with
  | view_node_t => view_node visitor n nd v
  | _ => generic_node visitor n nd v
  end.

(** Virtual dispatch of [visit]; the inner classes run
    [inner_node_t::visit]. [None] when a pointer does not name a node or
    when the recursion budget is used up (a cyclic graph). *)
Fixpoint visit (σ : heap) (fuel : nat) (n : node_id) (v : V)
    : option (iteration * V) :=
  match fuel with
  | O => None
  | S fuel =>
      nd ← σ !! n;
      if is_inner (cls nd) then
        let proceed := inner_node visitor n nd v in
        match proceed.1 with
        | STOP => Some (STOP, proceed.2)
        | ALL => visit_children (visit σ fuel) (children nd) proceed.2
        | SKIP_CHILDREN => Some (ALL, proceed.2)
        end
      else Some (visit_leaf n nd v)
  end.
End visit.

(** ** Replacing a child list *)

(** [extract_structure_nodes]: the structure nodes of the list, in list
    order. *)
Fixpoint extract_structure_nodes (σ : heap) (nodes : list node_id)
    : option (list node_id) :=
  match nodes with
  | [] => Some []
  | node :: rest =>
      nd ← σ !! node;
      structure ← extract_structure_nodes σ rest;
      Some (if _is_structure nd then node :: structure else structure)
  end.

(** [node->_parent = this] for each node of the list, in list order. *)
Fixpoint set_parents (σ : heap) (this : node_id) (new_list : list node_id)
    : option heap :=
  match new_list with
  | [] => Some σ
  | node :: rest =>
      nd ← σ !! node;
      set_parents (<[node := with_parent this nd]> σ) this rest
  end.

(** [inner_node_t::set_children_unchecked]. *)
Definition set_children_unchecked (σ : heap) (this : node_id)
    (new_list : list node_id) : option heap :=
  σ1 ← set_parents σ this new_list;
  nd ← σ1 !! this;
  if is_inner (cls nd)
  then Some (<[this := with_children new_list nd]> σ1)
  else None.

(** [floating_inner_node_t::set_children_list]: the answer and the heap
    after the call. Calling it on a node that is not a floating inner
    node is ill-typed in the source and gives [None] here. *)
Definition set_children_list (σ : heap) (this : node_id)
    (new_list : list node_id) : option (bool * heap) :=
  nd ← σ !! this;
  if is_floating (cls nd) then
    old_structure ← extract_structure_nodes σ (children nd);
    new_structure ← extract_structure_nodes σ new_list;
    if bool_decide (old_structure ≠ new_structure)
    then Some (false, σ)
    else σ' ← set_children_unchecked σ this new_list; Some (true, σ')
  else None.

(** ** Construction *)

(** Modelled from the spec: [enum class layer], "a fixed ordered
    enumeration {background, bottom, workspace, top, unmanaged, lock,
    desktop-widget, minimized}, lowest to highest priority", followed by
    the count [ALL_LAYERS]. *)
Inductive layer :=
| BACKGROUND | BOTTOM | WORKSPACE | TOP | UNMANAGED | LOCK | DWIDGET | MINIMIZED.

Definition layer_index (l : layer) : nat :=
  match l with
  | BACKGROUND => 0 | BOTTOM => 1 | WORKSPACE => 2 | TOP => 3
  | UNMANAGED => 4 | LOCK => 5 | DWIDGET => 6 | MINIMIZED => 7
  end.

Definition all_layers : list layer :=
  [BACKGROUND; BOTTOM; WORKSPACE; TOP; UNMANAGED; LOCK; DWIDGET; MINIMIZED].

Definition ALL_LAYERS : nat := 8.

(** [std::make_shared]: a cell at an identity that is not in use. *)
Definition alloc (σ : heap) (nd : node_t) : node_id * heap :=
  let p := fresh (dom σ) in (p, <[p := nd]> σ).

Section construction.
(** What [flags()] answers for a node that was just made is fixed by a
    header outside the sources. *)
Variable default_flags : Z.

(** [node_t::node_t(is_structure)]: no parent yet, no children. *)
Definition new_node (is_structure : bool) (c : node_class) : node_t :=
  mk_node is_structure None default_flags [] c.

(** [std::make_shared<floating_inner_node_t>(is_structure)]. *)
Definition make_floating_inner_node (σ : heap) (is_structure : bool)
    : node_id * heap :=
  alloc σ (new_node is_structure floating_inner_node_t).

(** [output_node_t::output_node_t], run on a newly allocated cell. *)
Definition make_output_node (σ : heap) : option (node_id * heap) :=
  let '(this, σ) := alloc σ (new_node false (output_node_t None None)) in
  let '(_static, σ) := make_floating_inner_node σ true in
  let '(dynamic, σ) := make_floating_inner_node σ true in
  let σ := alter (with_cls (output_node_t (Some _static) (Some dynamic))) this σ in
  σ ← set_children_unchecked σ this [dynamic; _static];
  Some (this, σ).

(** The loop of [root_node_t::root_node_t]; [n] is [i + 1]. *)
Fixpoint root_layers_loop (n : nat) (σ : heap)
    (layers : list (option node_id)) (children : list node_id)
    : heap * list (option node_id) * list node_id :=
  match n with
  | O => (σ, layers, children)
  | S i =>
      let '(l, σ) := make_floating_inner_node σ true in
      root_layers_loop i σ (<[i := Some l]> layers) (children ++ [l])
  end.

(** [root_node_t::root_node_t], run on a newly allocated cell. *)
Definition make_root_node (σ : heap) : option (node_id * heap) :=
  let '(this, σ) :=
    alloc σ (new_node true (root_node_t (replicate ALL_LAYERS None) (mk_priv []))) in
  let '(σ, layers, children) :=
    root_layers_loop ALL_LAYERS σ (replicate ALL_LAYERS None) [] in
  let σ := alter (with_cls (root_node_t layers (mk_priv []))) this σ in
  σ ← set_children_unchecked σ this children;
  Some (this, alter (with_priv (mk_priv [])) this σ).
End construction.

(** ** The focus tracker *)

Section focus.
(** [node_flags::ACTIVE_KEYBOARD], declared in a header outside the
    sources. *)
Variable ACTIVE_KEYBOARD : Z.

(** [collect_active_nodes_t::try_push]. *)
Definition try_push (node : node_id) (nd : node_t) (active_nodes : list node_id)
    : list node_id :=
  if bool_decide (Z.land (flags nd) ACTIVE_KEYBOARD ≠ 0%Z)
  then active_nodes ++ [node]
  else active_nodes.

(** [collect_active_nodes_t]; its state is the [active_nodes] vector. *)
Definition collect_active_nodes_t : visitor_t (list node_id) :=
  mk_visitor
    (λ node nd active_nodes, (ALL, try_push node nd active_nodes))
    (λ node nd active_nodes, (ALL, try_push node nd active_nodes))
    (λ node nd active_nodes, (ALL, try_push node nd active_nodes)).

(** [keyboard_interaction()]: the handlers of the nodes. They belong to
    code outside the scene graph; [W] is whatever state they act on. *)
Context {wlr_event_keyboard_key W : Type}.

Record keyboard_interaction_t := mk_keyboard_interaction {
  handle_keyboard_enter : node_id → W → W;
  handle_keyboard_leave : node_id → W → W;
  handle_keyboard_key : node_id → wlr_event_keyboard_key → W → keyboard_action * W
}.

Variable kb : keyboard_interaction_t.

(** The first loop of [update_active_nodes], over [already_focused]. *)
Definition notify_leave (already_focused new_focused : gset node_id) (w : W) : W :=
  foldl (λ w old_focus,
           if decide (old_focus ∈ new_focused) then w
           else handle_keyboard_leave kb old_focus w)
        w (elements already_focused).

(** The second loop of [update_active_nodes], over [new_focused]. *)
Definition notify_enter (already_focused new_focused : gset node_id) (w : W) : W :=
  foldl (λ w new_focus,
           if decide (new_focus ∈ already_focused) then w
           else handle_keyboard_enter kb new_focus w)
        w (elements new_focused).

(** [root_node_t::priv_t::update_active_nodes]. The two [std::set]s are
    finite sets of identities; iterating one goes through [elements]. *)
Definition update_active_nodes (σ : heap) (fuel : nat) (this : priv_t)
    (root : node_id) (w : W) : option (priv_t * W) :=
  collector ← visit collect_active_nodes_t σ fuel root [];
  let active_nodes := collector.2 in
  let already_focused : gset node_id := list_to_set (active_keyboard_nodes this) in
  let new_focused : gset node_id := list_to_set active_nodes in
  let w := notify_leave already_focused new_focused w in
  let w := notify_enter already_focused new_focused w in
  Some (mk_priv active_nodes, w).

(** [root_node_t::update]. *)
Definition update (σ : heap) (fuel : nat) (this : node_id) (w : W)
    : option (heap * W) :=
  nd ← σ !! this;
  match cls nd with
  | root_node_t layers priv =>
      r ← update_active_nodes σ fuel priv this w;
      Some (<[this := with_priv r.1 nd]> σ, r.2)
  | _ => None
  end.

(** The loop of [root_node_t::priv_t::handle_key]. *)
Fixpoint handle_key_nodes (nodes : list node_id) (ev : wlr_event_keyboard_key)
    (w : W) : W :=
  match nodes with
  | [] => w
  | node :: rest =>
      let result := handle_keyboard_key kb node ev w in
      match result.1 with
      | CONSUME => result.2
      | _ => handle_key_nodes rest ev result.2
      end
  end.

(** [root_node_t::priv_t::handle_key]. *)
Definition handle_key (this : priv_t) (ev : wlr_event_keyboard_key) (w : W) : W :=
  handle_key_nodes (active_keyboard_nodes this) ev w.
End focus.

Arguments keyboard_interaction_t : clear implicits.

End Scene.


(** * The IPC plugin: how [list_views] names a view's layer *)

Module Ipc.

Local Open Scope string_scope.
#[local] Set Warnings "-register-all".

(** A [nlohmann::json] value, as far as [list_views] builds one; an
    object keeps its fields as a list of keys and values. *)
Inductive json :=
| JInt (z : Z)
| JBool (b : bool)
| JStr (s : string)
| JArr (items : list json)
| JObj (fields : list (string * json)).

(** [j[key] = value] on an object. *)
Definition json_set (key : string) (value : json) (j : list (string * json))
    : list (string * json) :=
  (key, value) :: filter (λ kv, kv.1 ≠ key) j.

(** [j[key]] on an object. *)
Fixpoint json_get (key : string) (j : list (string * json)) : option json :=
  match j with
  | [] => None
  | (k, v) :: rest => if decide (k = key) then Some v else json_get key rest
  end.

(** [wf::geometry_t]. *)
Record geometry_t := mk_geometry { x : Z; y : Z; width : Z; height : Z }.

(** [geometry_to_json]. *)
Definition geometry_to_json (g : geometry_t) : json :=
  let j := [] in
  let j := json_set "x" (JInt (x g)) j in
  let j := json_set "y" (JInt (y g)) j in
  let j := json_set "width" (JInt (width g)) j in
  let j := json_set "height" (JInt (height g)) j in
  JObj j.

(** Conversion to [uint32_t]. *)
Definition to_uint32 (z : Z) : Z := (z mod 2 ^ 32)%Z.

Section layers.
(** The constants of [enum layer_t], declared in a header outside the
    sources. *)
Variables LAYER_BACKGROUND LAYER_BOTTOM LAYER_WORKSPACE LAYER_TOP : Z.
Variables LAYER_UNMANAGED LAYER_LOCK LAYER_DESKTOP_WIDGET LAYER_MINIMIZED : Z.

(** [layer_to_string]: the switch compares the [uint32_t] argument with
    each label converted to [uint32_t]. *)
Definition layer_to_string (layer : Z) : string :=
  if decide (layer = to_uint32 LAYER_BACKGROUND) then "background"
  else if decide (layer = to_uint32 LAYER_BOTTOM) then "bottom"
  else if decide (layer = to_uint32 LAYER_WORKSPACE) then "workspace"
  else if decide (layer = to_uint32 LAYER_TOP) then "top"
  else if decide (layer = to_uint32 LAYER_UNMANAGED) then "unmanaged"
  else if decide (layer = to_uint32 LAYER_LOCK) then "lock"
  else if decide (layer = to_uint32 LAYER_DESKTOP_WIDGET) then "dew"
  else if decide (layer = to_uint32 LAYER_MINIMIZED) then "minimized"
  else "none".

(** What [list_views] reads of a view. [output] is [None] when
    [get_output()] is null. *)
Context {output_t : Type}.

Record view_t := mk_view {
  title : string;
  app_id : string;
  wm_geometry : geometry_t;
  output_geometry : geometry_t;
  tiled_edges : Z;
  fullscreen : bool;
  minimized : bool;
  output : option output_t
}.

(** [output->workspace->get_view_layer(view)], defined outside the
    sources; its result is stored in a [uint32_t]. *)
Variable get_view_layer : output_t → view_t → Z.

(** The body of the loop of [list_views]. *)
Definition view_to_json (view : view_t) : json :=
  let v := [] in
  let v := json_set "title" (JStr (title view)) v in
  let v := json_set "app-id" (JStr (app_id view)) v in
  let v := json_set "geometry" (geometry_to_json (wm_geometry view)) v in
  let v := json_set "base-geometry" (geometry_to_json (output_geometry view)) v in
  let v := json_set "state"
             (JObj [("fullscreen", JBool (fullscreen view));
                    ("minimized", JBool (minimized view));
                    ("tiled", JInt (tiled_edges view))]) v in
  let layer := to_uint32 (-1) in
  let layer :=
    match output view with
    | Some o => to_uint32 (get_view_layer o view)
    | None => layer
    end in
  let v := json_set "layer" (JStr (layer_to_string layer)) v in
  JObj v.

(** [ipc_plugin_t::list_views], over the views of the core. *)
Definition list_views (all_views : list view_t) : json :=
  JArr (foldl (λ response view, (response ++ [view_to_json view])%list) [] all_views).
End layers.

Arguments view_t : clear implicits.
Arguments mk_view {output_t} _ _ _ _ _ _ _ _.

End Ipc.
(** * The IPC plugin: parsing a key combination and feeding input *)

Module IpcInput.
Import Stdlib.Strings.Ascii.
Import Ipc.

Local Open Scope string_scope.

(** [get_ok]. *)
Definition get_ok : json := JObj [("result", JStr "ok")].

(** [get_error]. *)
Definition get_error (msg : string) : json := JObj [("error", JStr msg)].

(** [data.count(key)]: [0] on anything but an object. *)
Definition json_count (key : string) (data : json) : nat :=
  match data with
  | JObj fields => if json_get key fields is Some _ then 1 else 0
  | _ => 0
  end.

(** [data[key]], read where [count] has shown the key to be there. *)
Definition json_at (key : string) (data : json) : option json :=
  match data with
  | JObj fields => json_get key fields
  | _ => None
  end.

(** [is_string()]. *)
Definition is_string (j : option json) : bool :=
  match j with
  | Some (JStr _) => true
  | _ => false
  end.

(** The conversion of a json string to [std::string]. *)
Definition get_string (j : option json) : string :=
  match j with
  | Some (JStr s) => s
  | _ => ""
  end.

(** [c_str()] as a C function reads it: the characters before the first
    NUL. *)
Fixpoint c_str (s : string) : string :=
  match s with
  | EmptyString => EmptyString
  | String c rest =>
      if Ascii.eqb c "000"%char then EmptyString else String c (c_str rest)
  end.

(** [struct key_t]. *)
Record key_t := mk_key { modifier : bool; code : Z }.

(** The double quote character of the error message. *)
Definition quote : string := String "034"%char EmptyString.

Section parse.
(** [libevdev_event_code_from_name(EV_KEY, name)], from libevdev: the
    code of the name, [-1] when there is none. *)
Variable libevdev_event_code_from_name : string → Z.

(** [parse_key]: a key, or an error message. *)
Definition parse_key (data : json) : key_t + string :=
  if Nat.eqb (json_count "combo" data) 0 || negb (is_string (json_at "combo" data))
  then inr "Missing or wrong json type for `combo`!"
  else
    let combo := get_string (json_at "combo" data) in
    if Nat.ltb (String.length combo) 4
    then inr "Missing or wrong json type for `combo`!"
    else
      let '(modifier, combo) :=
        if String.eqb (String.substring 0 2 combo) "S-"
        then (true, String.substring 2 (String.length combo - 2) combo)
        else (false, combo) in
      let key := libevdev_event_code_from_name (c_str combo) in
      if Z.eqb key (-1)
      then inr ("Failed to parse combo " ++ quote ++ combo ++ quote)
      else inl (mk_key modifier key).
End parse.

(** [wl_keyboard_key_state] and [wlr_button_state]. *)
Inductive wl_keyboard_key_state :=
| WL_KEYBOARD_KEY_STATE_RELEASED
| WL_KEYBOARD_KEY_STATE_PRESSED.

Inductive wlr_button_state := WLR_BUTTON_RELEASED | WLR_BUTTON_PRESSED.

(** The event structures [do_key] and [do_button] fill in; the device
    of a button event is always the pointer of the backend. *)
Record wlr_event_keyboard_key := mk_key_event {
  keycode : Z;
  key_state : wl_keyboard_key_state;
  update_state : bool;
  key_time_msec : Z
}.

Record wlr_event_pointer_button := mk_button_event {
  button : Z;
  button_state : wlr_button_state;
  button_time_msec : Z
}.

(** What the headless backend is asked to do, call by call. *)
Inductive backend_call :=
| wlr_keyboard_notify_key (ev : wlr_event_keyboard_key)
| emit_button (ev : wlr_event_pointer_button)
| emit_frame.

Section feed.
Variable libevdev_event_code_from_name : string → Z.
(** [KEY_LEFTMETA], from the kernel's input event codes. *)
Variable KEY_LEFTMETA : Z.
(** [get_current_time()], read from the clock: here a function of the
    calls made so far. *)
Variable get_current_time : list backend_call → Z.

(** [headless_input_backend_t::do_key]; the key is a [uint32_t]. *)
Definition do_key (key : Z) (state : wl_keyboard_key_state)
    (calls : list backend_call) : list backend_call :=
  let ev := mk_key_event (to_uint32 key) state true (get_current_time calls) in
  calls ++ [wlr_keyboard_notify_key ev].

(** [headless_input_backend_t::do_button]; the button is a [uint32_t]. *)
Definition do_button (button : Z) (state : wlr_button_state)
    (calls : list backend_call) : list backend_call :=
  let ev := mk_button_event (to_uint32 button) state (get_current_time calls) in
  (calls ++ [emit_button ev]) ++ [emit_frame].

(** [ipc_plugin_t::feed_key]: the response and the calls made. *)
Definition feed_key (data : json) (calls : list backend_call)
    : json * list backend_call :=
  match parse_key libevdev_event_code_from_name data with
  | inr msg => (get_error msg, calls)
  | inl key =>
      let calls :=
        if modifier key
        then do_key KEY_LEFTMETA WL_KEYBOARD_KEY_STATE_PRESSED calls
        else calls in
      let calls := do_key (code key) WL_KEYBOARD_KEY_STATE_PRESSED calls in
      let calls := do_key (code key) WL_KEYBOARD_KEY_STATE_RELEASED calls in
      let calls :=
        if modifier key
        then do_key KEY_LEFTMETA WL_KEYBOARD_KEY_STATE_RELEASED calls
        else calls in
      (get_ok, calls)
  end.

(** [ipc_plugin_t::feed_button]: the response and the calls made. *)
Definition feed_button (data : json) (calls : list backend_call)
    : json * list backend_call :=
  match parse_key libevdev_event_code_from_name data with
  | inr msg => (get_error msg, calls)
  | inl button =>
      if Nat.eqb (json_count "mode" data) 0 || negb (is_string (json_at "mode" data))
      then (get_error "No mode specified", calls)
      else
        let mode := get_string (json_at "mode" data) in
        let calls :=
          if String.eqb mode "press" || String.eqb mode "full" then
            let calls :=
              if modifier button
              then do_key KEY_LEFTMETA WL_KEYBOARD_KEY_STATE_PRESSED calls
              else calls in
            do_button (code button) WLR_BUTTON_PRESSED calls
          else calls in
        let calls :=
          if String.eqb mode "release" || String.eqb mode "full" then
            let calls := do_button (code button) WLR_BUTTON_RELEASED calls in
            if modifier button
            then do_key KEY_LEFTMETA WL_KEYBOARD_KEY_STATE_RELEASED calls
            else calls
          else calls in
        (get_ok, calls)
  end.
End feed.

Section wayland_output.
(** A [wlr_backend*] and [wlr_backend_is_wl], from wlroots. *)
Context {wlr_backend : Type}.
Variable wlr_backend_is_wl : wlr_backend → bool.

(** [locate_wayland_backend]: the callback writes the backend to
    [*result] when it is a wayland backend. *)
Definition locate_wayland_backend (result : option wlr_backend)
    (backend : wlr_backend) : option wlr_backend :=
  if wlr_backend_is_wl backend then Some backend else result.

(** [ipc_plugin_t::create_wayland_output]. The backends of the
    multi-backend are handed to the callback one after the other by
    [wlr_multi_for_each_backend]; the second component is the backend
    [wlr_wl_output_create] is called on, if it is called. *)
Definition create_wayland_output (backends : list wlr_backend)
    : json * option wlr_backend :=
  let wayland_backend := foldl locate_wayland_backend None backends in
  match wayland_backend with
  | None => (get_error "Wayfire is not running in nested wayland mode!", None)
  | Some b => (get_ok, Some b)
  end.
End wayland_output.

End IpcInput.

(** * Notions used to state the properties *)

Module SceneSpec.
Import Scene.

(** A pointer that names a node of the heap. *)
Definition allocated (σ : heap) (n : node_id) : Prop := is_Some (σ !! n).

Global Instance allocated_dec σ n : Decision (allocated σ n).
Proof. unfold allocated. apply _. Defined.

(** [is_structure_node()] through a pointer. *)
Definition is_structure_node (σ : heap) (n : node_id) : bool :=
  from_option _is_structure false (σ !! n).

(** The structural subsequence of a child list, in the spec's words: the
    structural nodes of the list, same identities, same order. *)
Definition structure_subseq (σ : heap) (l : list node_id) : list node_id :=
  filter (λ n, is_structure_node σ n = true) l.

Definition children_of (σ : heap) (n : node_id) : option (list node_id) :=
  children <$> σ !! n.

Definition parent_of (σ : heap) (n : node_id) : option (option node_id) :=
  _parent <$> σ !! n.

(** The graph below [n] is a tree of valid pointers of depth at most
    [depth]: no cycle is reachable from [n]. *)
Fixpoint tree_ok (σ : heap) (depth : nat) (n : node_id) : bool :=
  match depth with
  | O => false
  | S depth =>
      match σ !! n with
      | None => false
      | Some nd =>
          if is_inner (cls nd) then forallb (tree_ok σ depth) (children nd)
          else true
      end
  end.

(** The pre-order listing of the tree below [n]: the node, then the
    listings of its children in child-list order. *)
Fixpoint preorder (σ : heap) (depth : nat) (n : node_id) : list node_id :=
  match depth with
  | O => []
  | S depth =>
      match σ !! n with
      | None => []
      | Some nd =>
          n :: (if is_inner (cls nd)
                then flat_map (preorder σ depth) (children nd)
                else [])
      end
  end.

(** The tree below [n] is made of inner nodes only: it has no leaf. *)
Fixpoint only_inner (σ : heap) (depth : nat) (n : node_id) : bool :=
  match depth with
  | O => false
  | S depth =>
      match σ !! n with
      | None => false
      | Some nd => is_inner (cls nd) && forallb (only_inner σ depth) (children nd)
      end
  end.

(** The layer node a root keeps for a layer, [layers[(size_t)l]]. *)
Definition layer_node_of (nd : node_t) (l : layer) : option node_id :=
  match cls nd with
  | root_node_t layers _ => mjoin (layers !! layer_index l)
  | _ => None
  end.

(** The child list of a root goes through the layer nodes from the
    lowest layer of the enumeration to the highest. *)
Definition children_lowest_first (nd : node_t) : Prop :=
  Some <$> children nd = layer_node_of nd <$> all_layers.

(** The child list of a root goes through the layer nodes from the
    highest layer of the enumeration down to the lowest. *)
Definition children_highest_first (nd : node_t) : Prop :=
  Some <$> children nd = layer_node_of nd <$> reverse all_layers.

(** [rec] visits every node of the list, in list order, threading the
    visitor state, and none of the visits answers STOP. *)
Inductive visited_all {V : Type} (rec : node_id → V → option (iteration * V))
    : list node_id → V → V → Prop :=
| visited_nil v : visited_all rec [] v v
| visited_cons ch rest v r v1 v2 :
    rec ch v = Some (r, v1) → r ≠ STOP →
    visited_all rec rest v1 v2 →
    visited_all rec (ch :: rest) v v2.

(** A visitor that also writes down, in order, every node it is handed. *)
Definition tracing {V : Type} (vis : visitor_t V) : visitor_t (V * list node_id) :=
  mk_visitor
    (λ n nd s, let r := inner_node vis n nd s.1 in (r.1, (r.2, s.2 ++ [n])))
    (λ n nd s, let r := view_node vis n nd s.1 in (r.1, (r.2, s.2 ++ [n])))
    (λ n nd s, let r := generic_node vis n nd s.1 in (r.1, (r.2, s.2 ++ [n]))).

(** The focus-eligibility test of [try_push], through a pointer. *)
Definition focus_eligible (ACTIVE_KEYBOARD : Z) (σ : heap) (n : node_id) : bool :=
  from_option (λ nd, bool_decide (Z.land (flags nd) ACTIVE_KEYBOARD ≠ 0%Z))
              false (σ !! n).

(** What a traversal can see of a node: its flags, its children and
    whether it is an inner node, a view or something else. *)
Definition class_kind (c : node_class) : nat :=
  match c with
  | view_node_t => 1
  | generic_node_t => 2
  | _ => 0
  end.

Definition shape (σ : heap) (n : node_id) : option (Z * list node_id * nat) :=
  (λ nd, (flags nd, children nd, class_kind (cls nd))) <$> σ !! n.

(** Calls to the enter and leave handlers, as data. *)
Inductive kb_call := keyboard_leave (n : node_id) | keyboard_enter (n : node_id).

Global Instance kb_call_eq_dec : EqDecision kb_call.
Proof. solve_decision. Defined.

(** [x] is [n] or a descendant of [n] along child lists. *)
Inductive reachable (σ : heap) : node_id → node_id → Prop :=
| reach_self n : reachable σ n n
| reach_child n nd c x :
    σ !! n = Some nd → is_inner (cls nd) = true → c ∈ children nd →
    reachable σ c x → reachable σ n x.

(** Handlers that only write down the enter and leave calls they get. *)
Definition call_log (wlr_event_keyboard_key : Type)
    : keyboard_interaction_t wlr_event_keyboard_key (list kb_call) :=
  mk_keyboard_interaction
    (λ n log, log ++ [keyboard_enter n])
    (λ n log, log ++ [keyboard_leave n])
    (λ n ev log, (PASS_THROUGH, log)).

Section handlers.
Context {wlr_event_keyboard_key W : Type}.
Variable kb : keyboard_interaction_t wlr_event_keyboard_key W.

(** Making the calls of a list, in order. *)
Definition replay (calls : list kb_call) (w : W) : W :=
  foldl (λ w c,
           match c with
           | keyboard_leave n => handle_keyboard_leave kb n w
           | keyboard_enter n => handle_keyboard_enter kb n w
           end) w calls.

(** The key event is offered to every node of the list, in list order,
    and none of the handlers answers CONSUME. *)
Inductive passed_on (ev : wlr_event_keyboard_key) : list node_id → W → W → Prop :=
| passed_nil w : passed_on ev [] w w
| passed_cons node rest w w2 :
    (handle_keyboard_key kb node ev w).1 ≠ CONSUME →
    passed_on ev rest (handle_keyboard_key kb node ev w).2 w2 →
    passed_on ev (node :: rest) w w2.

(** The same handlers, which also write down, in order, every node whose
    key handler is called. *)
Definition recording : keyboard_interaction_t wlr_event_keyboard_key (W * list node_id) :=
  mk_keyboard_interaction
    (λ n s, (handle_keyboard_enter kb n s.1, s.2))
    (λ n s, (handle_keyboard_leave kb n s.1, s.2))
    (λ n ev s, let r := handle_keyboard_key kb n ev s.1 in (r.1, (r.2, s.2 ++ [n]))).
End handlers.

End SceneSpec.

(** * Notions used to state the properties of the IPC layer names *)

Module IpcSpec.
Import Ipc.

Local Open Scope string_scope.

(** The strings a layer can be reported as. *)
Definition layer_names : list string :=
  ["background"; "bottom"; "workspace"; "top"; "unmanaged"; "lock"; "dew";
   "minimized"; "none"].

(** The ["layer"] field of an entry of the response. *)
Definition layer_field (entry : json) : option string :=
  match entry with
  | JObj fields =>
      match json_get "layer" fields with
      | Some (JStr s) => Some s
      | _ => None
      end
  | _ => None
  end.

End IpcSpec.

(** * Notions used to state the properties of the input methods *)

Module IpcNotions.
Import Ipc IpcInput.

Local Open Scope string_scope.

(** A request that carries only a key combination. *)
Definition combo_data (combo : string) : json := JObj [("combo", JStr combo)].

(** A request with its ["mode"] set. *)
Definition with_mode (mode : string) (fields : list (string * json)) : json :=
  JObj (json_set "mode" (JStr mode) fields).

(** A call with its clock reading erased. *)
Definition untimed (c : backend_call) : backend_call :=
  match c with
  | wlr_keyboard_notify_key ev =>
      wlr_keyboard_notify_key
        (mk_key_event (keycode ev) (key_state ev) (update_state ev) 0)
  | emit_button ev =>
      emit_button (mk_button_event (button ev) (button_state ev) 0)
  | emit_frame => emit_frame
  end.

(** Pressing and releasing a key, clock reading erased. *)
Definition press_key (key : Z) : backend_call :=
  wlr_keyboard_notify_key
    (mk_key_event (to_uint32 key) WL_KEYBOARD_KEY_STATE_PRESSED true 0).

Definition release_key (key : Z) : backend_call :=
  wlr_keyboard_notify_key
    (mk_key_event (to_uint32 key) WL_KEYBOARD_KEY_STATE_RELEASED true 0).

(** A libevdev that knows one key. *)
Definition one_key (name : string) : Z :=
  if decide (name = "KEY_A") then 30%Z else (-1)%Z.

End IpcNotions.

(** * Two small scenes *)

Module Scenario.
Import Scene SceneSpec.

(** The bit of [node_flags::ACTIVE_KEYBOARD] in the scenes below. *)
Definition ACTIVE_KEYBOARD : Z := 1.

(** Root → layer "workspace" → {view A (focus-eligible), view B (not
    eligible)}, built with the constructors and [set_children_list]. *)
Definition build_views : option (node_id * node_id * node_id * node_id * heap) :=
  r ← make_root_node 0 ∅;
  let '(root, σ) := r in
  let '(a, σ) := alloc σ (mk_node false None 1 [] view_node_t) in
  let '(b, σ) := alloc σ (mk_node false None 0 [] view_node_t) in
  nd ← σ !! root;
  ws ← layer_node_of nd WORKSPACE;
  r ← set_children_list σ ws [a; b];
  Some (root, ws, a, b, r.2).

Definition root : node_id := 1%positive.
Definition workspace : node_id := 7%positive.
Definition view_a : node_id := 10%positive.
Definition view_b : node_id := 11%positive.

Definition views_scene : heap :=
  Eval vm_compute in from_option (λ r, r.2) ∅ build_views.

(** A root with two output nodes in its "workspace" layer, the static
    and dynamic regions of both being empty. *)
Definition build_outputs : option (node_id * node_id * heap) :=
  r ← make_root_node 0 ∅;
  let '(root, σ) := r in
  o1 ← make_output_node 0 σ;
  o2 ← make_output_node 0 o1.2;
  nd ← o2.2 !! root;
  ws ← layer_node_of nd WORKSPACE;
  r ← set_children_list o2.2 ws [o1.1; o2.1];
  Some (root, ws, r.2).

Definition outputs_scene : heap :=
  Eval vm_compute in from_option (λ r, r.2) ∅ build_outputs.

End Scenario.

(** * Further notions on the scene graph *)

Module SceneNotions.
Import Scene SceneSpec.

(** [c] is in the child list of the inner node [n]. *)
Definition child_of (σ : heap) (n c : node_id) : Prop :=
  ∃ nd, σ !! n = Some nd ∧ is_inner (cls nd) = true ∧ c ∈ children nd.

(** There is a chain of [k] child links that starts at [n]. *)
Fixpoint has_chain (σ : heap) (k : nat) (n : node_id) : Prop :=
  match k with
  | O => True
  | S k => ∃ c, child_of σ n c ∧ has_chain σ k c
  end.

(** The invariant of the data model: every child of an inner node
    points to that node as its parent. *)
Definition parents_ok (σ : heap) : Prop :=
  map_Forall (λ n nd,
    is_inner (cls nd) = true →
    Forall (λ c, parent_of σ c = Some (Some n)) (children nd)) σ.

Global Instance parents_ok_dec σ : Decision (parents_ok σ).
Proof. unfold parents_ok. apply _. Defined.

Section hit.
Context {pointf_t input_node_t : Type}.
Variable leaf_find_node_at : node_id → node_t → pointf_t → option input_node_t.

(** What a node of a listing answers to a point by itself: nothing for
    an inner node, the leaf's own answer for a leaf. *)
Definition own_answer (σ : heap) (at_ : pointf_t) (x : node_id)
    : option input_node_t :=
  nd ← σ !! x;
  if is_inner (cls nd) then None else leaf_find_node_at x nd at_.

(** The first non-empty answer along a listing. *)
Fixpoint first_answer (σ : heap) (at_ : pointf_t) (l : list node_id)
    : option input_node_t :=
  match l with
  | [] => None
  | x :: rest =>
      match own_answer σ at_ x with
      | Some a => Some a
      | None => first_answer σ at_ rest
      end
  end.
End hit.

(** A run of proposals to [set_children_list] on one node, one after the
    other, whatever each call answers. *)
Fixpoint set_children_lists (σ : heap) (this : node_id)
    (proposals : list (list node_id)) : option heap :=
  match proposals with
  | [] => Some σ
  | new_list :: rest =>
      r ← set_children_list σ this new_list;
      set_children_lists r.2 this rest
  end.

End SceneNotions.

(** * Two more scenes *)

Module Scenario2.
Import Scene SceneSpec Scenario.

(** The first scene with a dynamic (non-structural) floating inner node
    added to the "workspace" layer, after the two views. *)
Definition build_dynamic : option (node_id * heap) :=
  let '(f, σ) := make_floating_inner_node 0 views_scene false in
  r ← set_children_list σ workspace [view_a; view_b; f];
  Some (f, r.2).

Definition dynamic_node : node_id := 12%positive.

Definition dynamic_scene : heap :=
  Eval vm_compute in from_option (λ r, r.2) ∅ build_dynamic.

(** The same scene after the dynamic node was given itself as a child. *)
Definition looped_scene : heap :=
  Eval vm_compute in
    from_option (λ r, r.2) ∅
      (set_children_list dynamic_scene dynamic_node [dynamic_node]).

End Scenario2.

(** * Properties of the scene graph *)

Module SceneProps.
Import Scene SceneSpec.

Lemma extract_structure_nodes_filter σ l :
  Forall (allocated σ) l →
  extract_structure_nodes σ l = Some (structure_subseq σ l).
Proof.
  induction 1 as [|n l [nd Hn] _ IH]; [done|].
  cbn [extract_structure_nodes]. rewrite Hn, IH.
  unfold structure_subseq. rewrite filter_cons. cbn.
  assert (is_structure_node σ n = _is_structure nd) as Hs
    by (unfold is_structure_node; by rewrite Hn).
  destruct (_is_structure nd);
    [rewrite decide_True by done|rewrite decide_False by (rewrite Hs; done)]; done.
Qed.

Lemma with_parent_idemp p nd : with_parent p (with_parent p nd) = with_parent p nd.
Proof. done. Qed.

(** What the first loop of [set_children_unchecked] leaves in the heap. *)
Lemma set_parents_lookup σ this l σ1 :
  set_parents σ this l = Some σ1 →
  ∀ x, σ1 !! x = (if decide (x ∈ l) then with_parent this <$> σ !! x else σ !! x).
Proof.
  revert σ. induction l as [|n l IH]; intros σ Hs x; cbn in Hs.
  - simplify_eq. rewrite decide_False; [done|]. apply not_elem_of_nil.
  - destruct (σ !! n) as [nd|] eqn:Hn; [|done]. cbn in Hs.
    rewrite (IH _ Hs x). destruct (decide (x = n)) as [->|Hne].
    + rewrite lookup_insert_eq, Hn. rewrite (decide_True (P := n ∈ n :: l)) by left.
      destruct (decide (n ∈ l)); done.
    + rewrite lookup_insert_ne by done.
      destruct (decide (x ∈ l)) as [Hin|Hin].
      * rewrite decide_True; [done|]. by right.
      * rewrite decide_False; [done|]. by intros [?|?]%elem_of_cons.
Qed.

Lemma set_parents_total σ this l :
  Forall (allocated σ) l → is_Some (set_parents σ this l).
Proof.
  revert σ. induction l as [|n l IH]; intros σ Hall; [by eexists|].
  apply Forall_cons in Hall as [[nd Hn] Hall]. cbn. rewrite Hn. cbn.
  apply IH. eapply Forall_impl; [exact Hall|].
  intros x [y Hy]. unfold allocated.
  destruct (decide (n = x)) as [->|]; [rewrite lookup_insert_eq|rewrite lookup_insert_ne by done]; eauto.
Qed.

(** [set_children_unchecked] on an inner node and valid pointers: the
    heap it produces, cell by cell. *)
Lemma set_children_unchecked_lookup σ this nd new_list :
  σ !! this = Some nd → is_inner (cls nd) = true →
  Forall (allocated σ) new_list →
  ∃ σ', set_children_unchecked σ this new_list = Some σ' ∧
    (∀ x, σ' !! x =
       if decide (x = this) then
         Some (with_children new_list
                 (if decide (this ∈ new_list) then with_parent this nd else nd))
       else if decide (x ∈ new_list) then with_parent this <$> σ !! x
       else σ !! x).
Proof.
  intros Hthis Hin Hall.
  destruct (set_parents_total σ this new_list Hall) as [σ1 Hσ1].
  pose proof (set_parents_lookup _ _ _ _ Hσ1) as Hl.
  unfold set_children_unchecked. rewrite Hσ1. cbn.
  rewrite (Hl this), Hthis.
  destruct (decide (this ∈ new_list)); cbn; rewrite Hin; eexists; (split; [done|]);
    intros x; (destruct (decide (x = this)) as [->|];
      [by rewrite lookup_insert_eq|rewrite lookup_insert_ne by done; apply Hl]).
Qed.

(** ** Replacing the child list of a floating inner node *)

(** C1. On a floating inner node whose current and proposed children are
    valid pointers, [set_children_list] returns, and it answers [true]
    exactly when the structural subsequence of the current child list
    equals that of the proposed list; on [false] the heap (so the child
    list) is unchanged, on [true] the stored child list is the proposed
    list. *)
Theorem set_children_list_iff_structure (σ : heap) this nd new_list :
  σ !! this = Some nd →
  is_floating (cls nd) = true →
  Forall (allocated σ) (children nd) →
  Forall (allocated σ) new_list →
  ∃ ok σ',
    set_children_list σ this new_list = Some (ok, σ') ∧
    (ok = true ↔
       structure_subseq σ (children nd) = structure_subseq σ new_list) ∧
    (ok = false → σ' = σ ∧ children_of σ' this = Some (children nd)) ∧
    (ok = true → children_of σ' this = Some new_list).
Proof.
  intros Hthis Hfl Hold Hnew.
  assert (is_inner (cls nd) = true) as Hin by (by destruct (cls nd)).
  unfold set_children_list. rewrite Hthis. cbn. rewrite Hfl.
  rewrite !extract_structure_nodes_filter by done. cbn.
  case_bool_decide as Hne.
  - exists false, σ. split; [done|]. split; [|split]; [| |done].
    + split; [done|]. intros Heq. contradict Hne. done.
    + intros _. split; [done|]. unfold children_of. by rewrite Hthis.
  - destruct (set_children_unchecked_lookup σ this nd new_list Hthis Hin Hnew)
      as (σ' & Hσ' & Hl).
    rewrite Hσ'. cbn. exists true, σ'. split; [done|]. split; [|split]; [|done|].
    + split; [|done]. intros _. by destruct (decide (structure_subseq σ (children nd) = structure_subseq σ new_list)).
    + intros _. unfold children_of. rewrite Hl, decide_True by done. done.
Qed.

(** C9. [set_children_unchecked] on an inner node makes every node of the
    new list point to that node as its parent and leaves the parent
    pointer of every other node as it was: a former child that is not in
    the new list still points to its former owner, whose child list no
    longer contains it. A successful [set_children_list] is the same
    replacement. *)
Theorem set_children_unchecked_parents (σ : heap) this nd new_list :
  σ !! this = Some nd →
  is_inner (cls nd) = true →
  Forall (allocated σ) new_list →
  ∃ σ',
    set_children_unchecked σ this new_list = Some σ' ∧
    children_of σ' this = Some new_list ∧
    (∀ c, c ∈ new_list → parent_of σ' c = Some (Some this)) ∧
    (∀ c, c ∉ new_list → parent_of σ' c = parent_of σ c) ∧
    (∀ c, c ∈ children nd → c ∉ new_list →
          parent_of σ c = Some (Some this) →
          parent_of σ' c = Some (Some this) ∧
          ∃ l, children_of σ' this = Some l ∧ c ∉ l) ∧
    (∀ σ'', set_children_list σ this new_list = Some (true, σ'') → σ'' = σ').
Proof.
  intros Hthis Hin Hall.
  destruct (set_children_unchecked_lookup σ this nd new_list Hthis Hin Hall)
    as (σ' & Hσ' & Hl).
  assert (children_of σ' this = Some new_list) as Hch.
  { unfold children_of. rewrite Hl, decide_True by done. done. }
  assert (∀ c, c ∉ new_list → parent_of σ' c = parent_of σ c) as Hout.
  { intros c Hc. unfold parent_of. rewrite Hl.
    destruct (decide (c = this)) as [->|].
    - rewrite decide_False by done. by rewrite Hthis.
    - by rewrite decide_False. }
  exists σ'. split; [done|]. split; [done|]. split; [|split; [done|split]].
  - intros c Hc. unfold parent_of. rewrite Hl.
    destruct (decide (c = this)) as [->|].
    + rewrite decide_True by done. done.
    + rewrite decide_True by done.
      rewrite Forall_forall in Hall. destruct (Hall c Hc) as [ndc Hndc].
      by rewrite Hndc.
  - intros c Hc Hnot Hpar. split; [by rewrite Hout|]. eauto.
  - intros σ'' Hs. unfold set_children_list in Hs. rewrite Hthis in Hs. cbn in Hs.
    destruct (is_floating (cls nd)); [|done].
    destruct (extract_structure_nodes σ (children nd)); [|done]. cbn in Hs.
    destruct (extract_structure_nodes σ new_list); [|done]. cbn in Hs.
    case_bool_decide; [done|]. rewrite Hσ' in Hs. cbn in Hs. by simplify_eq.
Qed.

(** ** Traversal *)

Section traversal.
Context {V : Type}.
Variable vis : visitor_t V.

Lemma visit_children_mono (rec rec' : node_id → V → option (iteration * V)) chs :
  (∀ c v r, c ∈ chs → rec c v = Some r → rec' c v = Some r) →
  ∀ v r, visit_children rec chs v = Some r → visit_children rec' chs v = Some r.
Proof.
  induction chs as [|c chs IH]; intros Hrec v r Hv; [done|].
  cbn in Hv |- *. destruct (rec c v) as [[i v1]|] eqn:Hc; [|done].
  rewrite (Hrec c v _ (ltac:(left)) Hc). cbn in Hv |- *.
  destruct i; [done| |]; (apply IH; [|done]);
    intros c' v' r' Hin; apply Hrec; by right.
Qed.

(** A larger recursion budget does not change a result. *)
Lemma visit_fuel_S σ d n v r :
  visit vis σ d n v = Some r → visit vis σ (S d) n v = Some r.
Proof.
  revert n v r. induction d as [|d IH]; intros n v r Hv; [done|].
  cbn [visit] in Hv. cbn [visit].
  destruct (σ !! n) as [nd|]; [|done]. cbn in Hv |- *.
  destruct (cls nd), (inner_node vis n nd v).1; try done;
    (eapply visit_children_mono; [|exact Hv]); intros; by apply IH.
Qed.

Lemma visit_fuel_mono σ d d' n v r :
  d ≤ d' → visit vis σ d n v = Some r → visit vis σ d' n v = Some r.
Proof. induction 1; [done|]. intros. by apply visit_fuel_S, IHle. Qed.

(** Two completed runs agree, whatever their budgets. *)
Lemma visit_fuel_irrelevant σ d1 d2 n v r1 r2 :
  visit vis σ d1 n v = Some r1 → visit vis σ d2 n v = Some r2 → r1 = r2.
Proof.
  intros H1 H2.
  apply (visit_fuel_mono σ d1 (d1 `max` d2)) in H1; [|lia].
  apply (visit_fuel_mono σ d2 (d1 `max` d2)) in H2; [|lia].
  congruence.
Qed.

Lemma visit_children_total (rec : node_id → V → option (iteration * V)) chs :
  (∀ c v, c ∈ chs → is_Some (rec c v)) →
  ∀ v, is_Some (visit_children rec chs v).
Proof.
  induction chs as [|c chs IH]; intros Hrec v; [by eexists|].
  cbn. destruct (Hrec c v ltac:(left)) as [[i v1] Hc]. rewrite Hc. cbn.
  destruct i; [by eexists| |]; apply IH; intros; apply Hrec; by right.
Qed.

(** On a tree, a traversal returns. *)
Lemma visit_total σ d n v :
  tree_ok σ d n = true → is_Some (visit vis σ d n v).
Proof.
  revert n v. induction d as [|d IH]; intros n v Hok; [done|].
  cbn [tree_ok] in Hok. cbn [visit].
  destruct (σ !! n) as [nd|]; [|done]. cbn.
  assert (is_inner (cls nd) = true →
          ∀ v1, is_Some (visit_children (visit vis σ d) (children nd) v1)) as Hch.
  { intros Hin v1. rewrite Hin in Hok. apply visit_children_total.
    intros c v2 Hc. apply IH.
    apply (proj1 (forallb_forall _ _) Hok), list_elem_of_In, Hc. }
  destruct (cls nd), (inner_node vis n nd v).1; try (by eexists); by apply Hch.
Qed.

(** The children loop: it stops at the first child that answers STOP,
    or goes through all of them. *)
Lemma visit_children_inv (rec : node_id → V → option (iteration * V)) chs v r v' :
  visit_children rec chs v = Some (r, v') →
  (r = STOP ∧ ∃ pre c post v1,
      chs = pre ++ c :: post ∧ visited_all rec pre v v1 ∧
      rec c v1 = Some (STOP, v')) ∨
  (r = ALL ∧ visited_all rec chs v v').
Proof.
  revert v. induction chs as [|c chs IH]; intros v Hv; cbn in Hv.
  - simplify_eq. right. split; [done|]. constructor.
  - destruct (rec c v) as [[i v1]|] eqn:Hc; [|done]. cbn in Hv.
    assert (i ≠ STOP → visit_children rec chs v1 = Some (r, v') →
      (r = STOP ∧ ∃ pre c0 post v2,
          c :: chs = pre ++ c0 :: post ∧ visited_all rec pre v v2 ∧
          rec c0 v2 = Some (STOP, v')) ∨
      (r = ALL ∧ visited_all rec (c :: chs) v v')) as Hstep.
    { intros Hi Hrest. destruct (IH _ Hrest) as [(-> & pre & c0 & post & v2 & -> & Hpre & Hc0)|[-> Hall]].
      - left. split; [done|]. exists (c :: pre), c0, post, v2.
        split; [done|]. split; [|done]. by econstructor.
      - right. split; [done|]. by econstructor. }
    destruct i; [|by apply Hstep..].
    simplify_eq. left. split; [done|]. exists [], c, chs, v.
    split; [done|]. split; [constructor|done].
Qed.

End traversal.

Section tracing.
Context {V : Type}.
Variable vis : visitor_t V.

Lemma visit_children_tracing (rec : node_id → V → option (iteration * V))
    (rec' : node_id → V * list node_id → option (iteration * (V * list node_id))) chs :
  (∀ c s r s', c ∈ chs → rec' c s = Some (r, s') →
     rec c s.1 = Some (r, s'.1) ∧ ∃ t, s'.2 = s.2 ++ t) →
  ∀ s r s', visit_children rec' chs s = Some (r, s') →
    visit_children rec chs s.1 = Some (r, s'.1) ∧ ∃ t, s'.2 = s.2 ++ t.
Proof.
  induction chs as [|c chs IH]; intros Hrec s r s' Hv; cbn in Hv |- *.
  - simplify_eq. split; [done|]. exists []. by rewrite app_nil_r.
  - destruct (rec' c s) as [[i s1]|] eqn:Hc; [|done]. cbn in Hv.
    destruct (Hrec c s i s1 ltac:(left) Hc) as [Hc' [t1 Ht1]].
    rewrite Hc'. cbn.
    assert (visit_children rec' chs s1 = Some (r, s') →
            visit_children rec chs s1.1 = Some (r, s'.1) ∧ ∃ t, s'.2 = s.2 ++ t) as Hstep.
    { intros Hrest. destruct (IH ltac:(intros; eapply Hrec; [by right|done]) _ _ _ Hrest)
        as [Hr [t2 Ht2]].
      split; [done|]. exists (t1 ++ t2). by rewrite Ht2, Ht1, app_assoc. }
    destruct i; [|by apply Hstep..].
    simplify_eq. split; [done|]. eauto.
Qed.

(** A tracing visitor behaves as the visitor it wraps, and its trace
    grows by the visited node followed by what was visited below it. *)
Lemma visit_tracing σ d n s r s' :
  visit (tracing vis) σ d n s = Some (r, s') →
  visit vis σ d n s.1 = Some (r, s'.1) ∧ ∃ t, s'.2 = s.2 ++ n :: t.
Proof.
  revert n s r s'. induction d as [|d IH]; intros n s r s' Hv; [done|].
  cbn [visit] in Hv |- *. destruct (σ !! n) as [nd|]; [|done]. cbn in Hv |- *.
  assert (∀ i,
    match i with
    | STOP => Some (STOP, ((inner_node vis n nd s.1).2, s.2 ++ [n]))
    | SKIP_CHILDREN => Some (ALL, ((inner_node vis n nd s.1).2, s.2 ++ [n]))
    | ALL => visit_children (visit (tracing vis) σ d) (children nd)
               ((inner_node vis n nd s.1).2, s.2 ++ [n])
    end = Some (r, s') →
    match i with
    | STOP => Some (STOP, (inner_node vis n nd s.1).2)
    | SKIP_CHILDREN => Some (ALL, (inner_node vis n nd s.1).2)
    | ALL => visit_children (visit vis σ d) (children nd) (inner_node vis n nd s.1).2
    end = Some (r, s'.1) ∧ ∃ t, s'.2 = s.2 ++ n :: t) as Hinner.
  { intros [| |] Hi; [simplify_eq; cbn; split; [done|by exists []]..|].
    assert (∀ c s0 r0 s0', c ∈ children nd →
              visit (tracing vis) σ d c s0 = Some (r0, s0') →
              visit vis σ d c s0.1 = Some (r0, s0'.1) ∧ ∃ t, s0'.2 = s0.2 ++ t) as Hrec.
    { intros c s0 r0 s0' _ Hc. destruct (IH _ _ _ _ Hc) as [? [t ?]]. eauto. }
    destruct (visit_children_tracing (visit vis σ d) (visit (tracing vis) σ d)
                (children nd) Hrec _ _ _ Hi) as [Hr [t Ht]].
    split; [done|]. exists t. cbn in Ht. by rewrite Ht, <- app_assoc. }
  unfold visit_leaf in Hv |- *.
  destruct (cls nd); cbn in Hv |- *; try (by apply Hinner);
    simplify_eq; cbn; (split; [|by exists []]).
  - by destruct (view_node vis n nd s.1).
  - by destruct (generic_node vis n nd s.1).
Qed.

End tracing.

(** C3. [visit] on an inner node of a tree hands the node to [inner_node]
    before anything else (the trace starts with the node). On STOP it
    returns STOP with the state the callback left and nothing else
    visited; on SKIP_CHILDREN it returns ALL, again with nothing else
    visited; on ALL it visits the children in list order and either
    returns STOP right after the first child that answers STOP, or
    returns ALL after the last child. In the loop of a parent, STOP ends
    the loop and anything else continues with the remaining siblings. *)
Theorem inner_visit_protocol {V : Type} (vis : visitor_t V) (σ : heap) d n nd v :
  σ !! n = Some nd →
  is_inner (cls nd) = true →
  tree_ok σ (S d) n = true →
  let proceed := inner_node vis n nd v in
  ∃ r v' t,
    visit vis σ (S d) n v = Some (r, v') ∧
    visit (tracing vis) σ (S d) n (v, []) = Some (r, (v', n :: t)) ∧
    match proceed.1 with
    | STOP => r = STOP ∧ v' = proceed.2 ∧ t = []
    | SKIP_CHILDREN => r = ALL ∧ v' = proceed.2 ∧ t = []
    | ALL =>
        (r = STOP ∧ ∃ pre c post v1,
            children nd = pre ++ c :: post ∧
            visited_all (visit vis σ d) pre proceed.2 v1 ∧
            visit vis σ d c v1 = Some (STOP, v')) ∨
        (r = ALL ∧ visited_all (visit vis σ d) (children nd) proceed.2 v')
    end ∧
    (∀ siblings,
       visit_children (visit vis σ (S d)) (n :: siblings) v =
       if decide (r = STOP) then Some (STOP, v')
       else visit_children (visit vis σ (S d)) siblings v').
Proof.
  intros Hn Hin Hok proceed.
  destruct (visit_total (tracing vis) σ (S d) n (v, []) Hok) as [[r [v' t']] Ht].
  destruct (visit_tracing vis _ _ _ _ _ _ Ht) as [Hv [t Htr]]. cbn [fst snd app] in Hv, Htr.
  subst t'. exists r, v', t. split; [done|]. split; [done|]. split.
  - cbn [visit] in Hv, Ht. rewrite Hn in Hv, Ht. cbn in Hv, Ht.
    assert (match (inner_node vis n nd v).1 with
            | STOP => Some (STOP, (inner_node vis n nd v).2)
            | SKIP_CHILDREN => Some (ALL, (inner_node vis n nd v).2)
            | ALL => visit_children (visit vis σ d) (children nd) (inner_node vis n nd v).2
            end = Some (r, v')) as Hv' by (by destruct (cls nd)).
    assert (match (inner_node vis n nd v).1 with
            | STOP => Some (STOP, ((inner_node vis n nd v).2, [n]))
            | SKIP_CHILDREN => Some (ALL, ((inner_node vis n nd v).2, [n]))
            | ALL => visit_children (visit (tracing vis) σ d) (children nd)
                       ((inner_node vis n nd v).2, [n])
            end = Some (r, (v', n :: t))) as Ht' by (by destruct (cls nd)).
    clear Hv Ht. subst proceed.
    destruct (inner_node vis n nd v).1; simplify_eq; [done..|].
    by apply visit_children_inv.
  - intros siblings. cbn [visit_children]. rewrite Hv. cbn.
    destruct r; [by rewrite decide_True|by rewrite decide_False..].
Qed.

(** ** The collection pass *)

Section collect.
Variable ACTIVE_KEYBOARD : Z.

Abbreviation collector := (collect_active_nodes_t ACTIVE_KEYBOARD).
Abbreviation eligible σ := (λ x : node_id, focus_eligible ACTIVE_KEYBOARD σ x = true).

Lemma try_push_filter (σ : heap) n nd acc :
  σ !! n = Some nd →
  try_push ACTIVE_KEYBOARD n nd acc = acc ++ filter (eligible σ) [n].
Proof.
  intros Hn. unfold try_push. rewrite filter_cons, filter_nil.
  assert (focus_eligible ACTIVE_KEYBOARD σ n
          = bool_decide (Z.land (flags nd) ACTIVE_KEYBOARD ≠ 0%Z)) as He
    by (unfold focus_eligible; by rewrite Hn).
  case_bool_decide.
  - by rewrite decide_True.
  - rewrite decide_False by (rewrite He; done). by rewrite app_nil_r.
Qed.

Lemma collect_children (σ : heap) d chs :
  (∀ c s, c ∈ chs →
     visit (tracing collector) σ d c s
     = Some (ALL, (s.1 ++ filter (eligible σ) (preorder σ d c),
                   s.2 ++ preorder σ d c))) →
  ∀ s, visit_children (visit (tracing collector) σ d) chs s
       = Some (ALL, (s.1 ++ filter (eligible σ) (flat_map (preorder σ d) chs),
                     s.2 ++ flat_map (preorder σ d) chs)).
Proof.
  induction chs as [|c chs IH]; intros Hrec s; cbn [visit_children flat_map].
  - rewrite filter_nil, !app_nil_r. by destruct s.
  - rewrite (Hrec c s) by left. cbn.
    rewrite IH by (intros; apply Hrec; by right). cbn.
    by rewrite filter_app, !app_assoc.
Qed.

(** The collector is handed every node of the tree, in pre-order, never
    stops early and gathers exactly the focus-eligible nodes. *)
Lemma collect_tracing_preorder (σ : heap) d n s :
  tree_ok σ d n = true →
  visit (tracing collector) σ d n s
  = Some (ALL, (s.1 ++ filter (eligible σ) (preorder σ d n), s.2 ++ preorder σ d n)).
Proof.
  revert n s. induction d as [|d IH]; intros n s Hok; [done|].
  cbn [tree_ok] in Hok. cbn [visit preorder].
  destruct (σ !! n) as [nd|] eqn:Hn; [|done]. cbn [mbind option_bind].
  destruct (is_inner (cls nd)) eqn:Hin.
  - cbn. rewrite collect_children.
    + cbn. rewrite (try_push_filter σ) by done.
      rewrite (filter_cons _ n []), filter_nil.
      destruct (decide (focus_eligible ACTIVE_KEYBOARD σ n = true));
        by rewrite <- !app_assoc.
    + intros c s' Hc. apply IH.
      apply (proj1 (forallb_forall _ _) Hok), list_elem_of_In, Hc.
  - unfold visit_leaf.
    destruct (cls nd); try done; cbn; by rewrite (try_push_filter σ).
Qed.

Lemma collect_preorder (σ : heap) d n acc :
  tree_ok σ d n = true →
  visit collector σ d n acc = Some (ALL, acc ++ filter (eligible σ) (preorder σ d n)).
Proof.
  intros Hok.
  pose proof (collect_tracing_preorder σ d n (acc, []) Hok) as Ht.
  by apply visit_tracing in Ht as [Hv _].
Qed.

Lemma visit_children_ext {V} (rec rec' : node_id → V → option (iteration * V)) chs :
  (∀ c v, c ∈ chs → rec c v = rec' c v) →
  ∀ v, visit_children rec chs v = visit_children rec' chs v.
Proof.
  induction chs as [|c chs IH]; intros Hrec v; [done|].
  cbn. rewrite (Hrec c v) by left. destruct (rec' c v) as [[i v1]|]; [|done]. cbn.
  destruct i; [done| |]; apply IH; intros; apply Hrec; by right.
Qed.

(** The collection depends on the heap only through the flags, the child
    lists and the kinds of the nodes. *)
Lemma collect_shape (σ σ' : heap) d n acc :
  (∀ x, shape σ x = shape σ' x) →
  visit collector σ' d n acc = visit collector σ d n acc.
Proof.
  intros Hsh. revert n acc. induction d as [|d IH]; intros n acc; [done|].
  cbn [visit]. specialize (Hsh n) as Hn. unfold shape in Hn.
  destruct (σ !! n) as [nd|], (σ' !! n) as [nd'|]; try done. cbn in Hn |- *.
  injection Hn as Hf Hc Hk.
  assert (try_push ACTIVE_KEYBOARD n nd' acc = try_push ACTIVE_KEYBOARD n nd acc) as Hp
    by (unfold try_push; by rewrite Hf).
  unfold visit_leaf. cbn. rewrite Hp, <- Hc.
  destruct (cls nd), (cls nd'); try done; cbn;
    apply visit_children_ext; intros; apply IH.
Qed.

(** The collector answers ALL whenever it returns. *)
Lemma collect_never_stops (σ : heap) d n acc r :
  visit collector σ d n acc = Some r → r.1 = ALL.
Proof.
  revert n acc r. induction d as [|d IH]; intros n acc r Hv; [done|].
  cbn in Hv. destruct (σ !! n) as [nd|]; [|done]. cbn in Hv.
  assert (∀ chs acc r,
    visit_children (visit collector σ d) chs acc = Some r → r.1 = ALL) as Hch.
  { induction chs as [|c chs IHc]; intros acc' r' Hr; cbn in Hr; [by simplify_eq|].
    destruct (visit collector σ d c acc') as [[j a]|] eqn:Hc; [|done].
    apply IH in Hc. cbn in Hc, Hr. subst j. by eapply IHc. }
  unfold visit_leaf in Hv.
  destruct (cls nd); cbn in Hv; try (by simplify_eq); by apply Hch in Hv.
Qed.

Lemma preorder_reachable (σ : heap) d n x :
  tree_ok σ d n = true → reachable σ n x → x ∈ preorder σ d n.
Proof.
  intros Hok Hr. revert d Hok.
  induction Hr as [n|n nd c x Hn Hin Hc _ IH]; intros [|d] Hok; try done;
    cbn [tree_ok preorder] in Hok |- *.
  - destruct (σ !! n); [left|done].
  - rewrite Hn in Hok |- *. rewrite Hin in Hok |- *. right.
    apply list_elem_of_In, in_flat_map. exists c. split; [by apply list_elem_of_In|].
    apply list_elem_of_In, IH.
    apply (proj1 (forallb_forall _ _) Hok), list_elem_of_In, Hc.
Qed.

End collect.

(** ** The focus tracker *)

Section focus_props.
Variable ACTIVE_KEYBOARD : Z.
Context {wlr_event_keyboard_key W : Type}.
Variable kb : keyboard_interaction_t wlr_event_keyboard_key W.

Abbreviation collector := (collect_active_nodes_t ACTIVE_KEYBOARD).
Abbreviation eligible σ := (λ x : node_id, focus_eligible ACTIVE_KEYBOARD σ x = true).

Lemma replay_app calls1 calls2 (w : W) :
  replay kb (calls1 ++ calls2) w = replay kb calls2 (replay kb calls1 w).
Proof. apply foldl_app. Qed.

Lemma notify_leave_replay (already_focused new_focused : gset node_id) (w : W) :
  notify_leave kb already_focused new_focused w
  = replay kb (keyboard_leave <$> filter (λ x, x ∉ new_focused) (elements already_focused)) w.
Proof.
  unfold notify_leave, replay. revert w.
  induction (elements already_focused) as [|x l IH]; intros w; [done|].
  cbn [foldl]. rewrite filter_cons. destruct (decide (x ∈ new_focused)).
  - rewrite decide_False by tauto. apply IH.
  - rewrite decide_True by done. cbn. apply IH.
Qed.

Lemma notify_enter_replay (already_focused new_focused : gset node_id) (w : W) :
  notify_enter kb already_focused new_focused w
  = replay kb (keyboard_enter <$> filter (λ x, x ∉ already_focused) (elements new_focused)) w.
Proof.
  unfold notify_enter, replay. revert w.
  induction (elements new_focused) as [|x l IH]; intros w; [done|].
  cbn [foldl]. rewrite filter_cons. destruct (decide (x ∈ already_focused)).
  - rewrite decide_False by tauto. apply IH.
  - rewrite decide_True by done. cbn. apply IH.
Qed.

(** No node leaves and none enters when the two sets are the same. *)
Lemma notify_same (focused : gset node_id) (w : W) :
  notify_enter kb focused focused (notify_leave kb focused focused w) = w.
Proof.
  assert (filter (λ x, x ∉ focused) (elements focused) = []) as Hnil.
  { apply elem_of_nil_inv. intros x (Hx & Hin%elem_of_elements)%list_elem_of_filter. tauto. }
  rewrite notify_enter_replay, notify_leave_replay, Hnil. done.
Qed.

(** [update_active_nodes] on a tree: the new active set is the pre-order
    list of the focus-eligible nodes, the leave calls come first, then
    the enter calls, each on the difference of the two sets and without
    repetition. *)
Lemma update_active_nodes_calls (σ : heap) d this root (w : W) :
  tree_ok σ d root = true →
  let old := active_keyboard_nodes this in
  let new := filter (eligible σ) (preorder σ d root) in
  ∃ L E,
    update_active_nodes ACTIVE_KEYBOARD kb σ d this root w
    = Some (mk_priv new, replay kb ((keyboard_leave <$> L) ++ (keyboard_enter <$> E)) w) ∧
    NoDup L ∧ NoDup E ∧
    (∀ x, x ∈ L ↔ x ∈ old ∧ x ∉ new) ∧
    (∀ x, x ∈ E ↔ x ∈ new ∧ x ∉ old).
Proof.
  intros Hok old new.
  exists (filter (λ x, x ∉ (list_to_set new : gset node_id)) (elements (list_to_set old : gset node_id))),
         (filter (λ x, x ∉ (list_to_set old : gset node_id)) (elements (list_to_set new : gset node_id))).
  split; [|split; [|split; [|split]]].
  - unfold update_active_nodes. rewrite (collect_preorder _ σ d root [] Hok). cbn.
    by rewrite notify_enter_replay, notify_leave_replay, replay_app.
  - apply NoDup_filter, NoDup_elements.
  - apply NoDup_filter, NoDup_elements.
  - intros x. rewrite list_elem_of_filter, elem_of_elements, !elem_of_list_to_set. tauto.
  - intros x. rewrite list_elem_of_filter, elem_of_elements, !elem_of_list_to_set. tauto.
Qed.

End focus_props.

Lemma replay_call_log (E : Type) calls log :
  replay (call_log E) calls log = log ++ calls.
Proof.
  revert log. induction calls as [|c calls IH]; intros log; cbn.
  - by rewrite app_nil_r.
  - unfold replay in IH. destruct c; cbn; rewrite IH, <- app_assoc; done.
Qed.

Lemma with_priv_shape (σ : heap) root nd p :
  σ !! root = Some nd →
  ∀ x, shape σ x = shape (<[root := with_priv p nd]> σ) x.
Proof.
  intros Hn x. unfold shape. destruct (decide (x = root)) as [->|].
  - rewrite lookup_insert_eq, Hn. unfold with_priv.
    destruct (cls nd) eqn:Hc; cbn; by rewrite ?Hc.
  - by rewrite lookup_insert_ne.
Qed.

Section focus_theorems.
Variable ACTIVE_KEYBOARD : Z.
Context {wlr_event_keyboard_key W : Type}.
Variable kb : keyboard_interaction_t wlr_event_keyboard_key W.

Abbreviation collector := (collect_active_nodes_t ACTIVE_KEYBOARD).
Abbreviation eligible σ := (λ x : node_id, focus_eligible ACTIVE_KEYBOARD σ x = true).

(** C2. [update()] on the root of a tree returns. The collection pass
    is handed every node reachable from the root, in pre-order, answers
    ALL and gathers, in that order, the nodes whose focus-eligibility
    flag is set. The handler calls are the leave calls followed by the enter calls; leave
    is called once on each node of the previous active set that is not in
    the collected set, enter once on each collected node that is not in
    the previous set, and no other call is made. *)
Theorem update_notifications (σ : heap) d root nd layers priv (w : W) :
  σ !! root = Some nd →
  cls nd = root_node_t layers priv →
  tree_ok σ d root = true →
  let old := active_keyboard_nodes priv in
  let new := filter (eligible σ) (preorder σ d root) in
  ∃ L E,
    update ACTIVE_KEYBOARD kb σ d root w
    = Some (<[root := with_priv (mk_priv new) nd]> σ,
            replay kb ((keyboard_leave <$> L) ++ (keyboard_enter <$> E)) w) ∧
    update ACTIVE_KEYBOARD (call_log wlr_event_keyboard_key) σ d root []
    = Some (<[root := with_priv (mk_priv new) nd]> σ,
            (keyboard_leave <$> L) ++ (keyboard_enter <$> E)) ∧
    NoDup L ∧ NoDup E ∧
    (∀ x, x ∈ L ↔ x ∈ old ∧ x ∉ new) ∧
    (∀ x, x ∈ E ↔ x ∈ new ∧ x ∉ old) ∧
    visit collector σ d root [] = Some (ALL, new) ∧
    visit (tracing collector) σ d root ([], [])
    = Some (ALL, (new, preorder σ d root)) ∧
    (∀ x, reachable σ root x → x ∈ preorder σ d root) ∧
    (∀ x, reachable σ root x → focus_eligible ACTIVE_KEYBOARD σ x = true → x ∈ new).
Proof.
  intros Hn Hcls Hok old new.
  pose proof (collect_preorder ACTIVE_KEYBOARD σ d root [] Hok) as Hcol.
  unfold update. rewrite Hn. cbn. rewrite Hcls.
  unfold update_active_nodes. rewrite Hcol. cbn.
  exists (filter (λ x, x ∉ (list_to_set new : gset node_id)) (elements (list_to_set old : gset node_id))),
         (filter (λ x, x ∉ (list_to_set old : gset node_id)) (elements (list_to_set new : gset node_id))).
  split; [|split; [|split; [|split; [|split; [|split; [|split; [|split; [|split]]]]]]]].
  - by rewrite notify_enter_replay, notify_leave_replay, replay_app.
  - rewrite notify_enter_replay, notify_leave_replay, <- replay_app.
    by rewrite replay_call_log.
  - apply NoDup_filter, NoDup_elements.
  - apply NoDup_filter, NoDup_elements.
  - intros x. rewrite list_elem_of_filter, elem_of_elements, !elem_of_list_to_set. tauto.
  - intros x. rewrite list_elem_of_filter, elem_of_elements, !elem_of_list_to_set. tauto.
  - done.
  - apply (collect_tracing_preorder ACTIVE_KEYBOARD σ d root ([], []) Hok).
  - intros x Hr. by apply preorder_reachable.
  - intros x Hr He. apply list_elem_of_filter. split; [done|].
    by apply preorder_reachable.
Qed.

(** C7. After an [update()] that returned, a second [update()] with
    nothing changed in between calls no enter and no leave handler
    (whatever the handlers are) and leaves the heap, in which the root
    stores the active set collected by the first call, as it is. *)
Theorem update_idempotent (σ : heap) d root (w : W) σ1 w1 :
  update ACTIVE_KEYBOARD kb σ d root w = Some (σ1, w1) →
  (∀ W' (kb' : keyboard_interaction_t wlr_event_keyboard_key W') (w' : W'),
     update ACTIVE_KEYBOARD kb' σ1 d root w' = Some (σ1, w')) ∧
  update ACTIVE_KEYBOARD (call_log wlr_event_keyboard_key) σ1 d root [] = Some (σ1, []) ∧
  ∃ nd1 layers active,
    σ1 !! root = Some nd1 ∧
    cls nd1 = root_node_t layers (mk_priv active) ∧
    visit collector σ d root [] = Some (ALL, active).
Proof.
  intros Hup. unfold update in Hup.
  destruct (σ !! root) as [nd|] eqn:Hn; [|done]. cbn in Hup.
  destruct (cls nd) as [| | |layers priv| |] eqn:Hcls; try done.
  unfold update_active_nodes in Hup.
  destruct (visit collector σ d root []) as [[i active]|] eqn:Hcol; [|done].
  cbn in Hup. injection Hup as <- <-.
  assert (with_priv (mk_priv active) nd
          = with_cls (root_node_t layers (mk_priv active)) nd) as Hwp
    by (unfold with_priv; by rewrite Hcls).
  assert (i = ALL) as ->.
  { by apply collect_never_stops in Hcol. }
  assert (∀ W' (kb' : keyboard_interaction_t wlr_event_keyboard_key W') (w' : W'),
     update ACTIVE_KEYBOARD kb' (<[root := with_priv (mk_priv active) nd]> σ) d root w'
     = Some (<[root := with_priv (mk_priv active) nd]> σ, w')) as Hsecond.
  { intros W' kb' w'. unfold update. rewrite lookup_insert_eq. cbn.
    rewrite Hwp at 1. cbn. unfold update_active_nodes.
    rewrite (collect_shape ACTIVE_KEYBOARD σ _ d root []
               (with_priv_shape σ root nd (mk_priv active) Hn)), Hcol. cbn.
    rewrite notify_same, insert_insert_eq.
    rewrite Hwp. done. }
  split; [done|]. split; [apply Hsecond|].
  exists (with_priv (mk_priv active) nd), layers, active.
  rewrite lookup_insert_eq, Hwp. done.
Qed.

(** C4. [handle_key] offers the event to the nodes of the stored active
    set in list order. Either some node is the first whose handler
    answers CONSUME, and then the handlers called are those of the nodes
    before it and its own, and no other; or no handler answers CONSUME
    and every node of the list was offered the event. On an empty active
    set no handler is called and the handlers' state is unchanged. *)
Theorem handle_key_first_consume this (ev : wlr_event_keyboard_key) (w : W) :
  let nodes := active_keyboard_nodes this in
  ((∃ pre c post w1,
      nodes = pre ++ c :: post ∧
      passed_on kb ev pre w w1 ∧
      (handle_keyboard_key kb c ev w1).1 = CONSUME ∧
      handle_key kb this ev w = (handle_keyboard_key kb c ev w1).2 ∧
      handle_key (recording kb) this ev (w, [])
      = ((handle_keyboard_key kb c ev w1).2, pre ++ [c])) ∨
   (passed_on kb ev nodes w (handle_key kb this ev w) ∧
    handle_key (recording kb) this ev (w, []) = (handle_key kb this ev w, nodes))) ∧
  (nodes = [] →
   handle_key kb this ev w = w ∧ handle_key (recording kb) this ev (w, []) = (w, [])).
Proof.
  intros nodes. split; [|by unfold handle_key; fold nodes; intros ->].
  unfold handle_key. fold nodes. generalize nodes. clear nodes this.
  assert (∀ nodes w log,
    (∃ pre c post w1,
      nodes = pre ++ c :: post ∧ passed_on kb ev pre w w1 ∧
      (handle_keyboard_key kb c ev w1).1 = CONSUME ∧
      handle_key_nodes kb nodes ev w = (handle_keyboard_key kb c ev w1).2 ∧
      handle_key_nodes (recording kb) nodes ev (w, log)
      = ((handle_keyboard_key kb c ev w1).2, log ++ pre ++ [c])) ∨
    (passed_on kb ev nodes w (handle_key_nodes kb nodes ev w) ∧
     handle_key_nodes (recording kb) nodes ev (w, log)
     = (handle_key_nodes kb nodes ev w, log ++ nodes))) as Hgen.
  { induction nodes as [|n nodes IH]; intros w' log.
    - right. cbn. rewrite app_nil_r. split; [constructor|done].
    - cbn [handle_key_nodes]. cbn [recording handle_keyboard_key fst snd].
      destruct (handle_keyboard_key kb n ev w') as [a w2] eqn:Hh. cbn [fst snd].
      destruct a.
      + left. exists [], n, nodes, w'. rewrite Hh. cbn.
        split; [done|]. split; [constructor|done].
      + destruct (IH w2 (log ++ [n]))
          as [(pre & c & post & w1 & -> & Hp & Hc & Hk & Hr)|[Hp Hr]].
        * left. exists (n :: pre), c, post, w1.
          split; [done|]. split; [econstructor; rewrite Hh; [done|exact Hp]|].
          split; [done|]. split; [done|].
          rewrite Hr. by rewrite <- app_assoc.
        * right. split; [econstructor; rewrite Hh; [done|exact Hp]|].
          rewrite Hr. by rewrite <- app_assoc. }
  intros nodes. apply (Hgen nodes w []).
Qed.

End focus_theorems.

(** C8. Two completed traversals of the same heap from the same node
    with the same visitor and the same starting state give the same
    answer, the same final state and the same list of visited nodes,
    whatever their recursion budgets. For the collection pass the two
    heaps need only agree on flags, child lists and node kinds: the
    collected lists are equal, with the same length. *)
Theorem traversal_deterministic (ACTIVE_KEYBOARD : Z) (σ σ' : heap) root d1 d2 r1 r2 :
  (∀ x, shape σ x = shape σ' x) →
  visit (collect_active_nodes_t ACTIVE_KEYBOARD) σ d1 root [] = Some r1 →
  visit (collect_active_nodes_t ACTIVE_KEYBOARD) σ' d2 root [] = Some r2 →
  r1.2 = r2.2 ∧ length r1.2 = length r2.2 ∧
  ∀ V (vis : visitor_t V) (v : V) s1 s2,
    visit (tracing vis) σ d1 root (v, []) = Some s1 →
    visit (tracing vis) σ d2 root (v, []) = Some s2 →
    s1 = s2.
Proof.
  intros Hsh H1 H2. rewrite (collect_shape _ σ σ' _ _ _ Hsh) in H2.
  pose proof (visit_fuel_irrelevant _ _ _ _ _ _ _ _ H1 H2) as ->.
  split; [done|]. split; [done|].
  intros V vis v s1 s2 Hs1 Hs2. by eapply visit_fuel_irrelevant.
Qed.

(** ** Hit testing *)

Section find_node_props.
Context {pointf_t input_node_t : Type}.
Variable leaf_find_node_at : node_id → node_t → pointf_t → option input_node_t.

Lemma find_in_children_inv (rec : node_id → option (option input_node_t)) chs :
  (∀ c, c ∈ chs → is_Some (rec c)) →
  ∃ r, find_in_children rec chs = Some r ∧
    ((∃ pre c post x,
        chs = pre ++ c :: post ∧ Forall (λ p, rec p = Some None) pre ∧
        rec c = Some (Some x) ∧ r = Some x) ∨
     (Forall (λ c, rec c = Some None) chs ∧ r = None)).
Proof.
  induction chs as [|c chs IH]; intros Hrec; cbn.
  - exists None. split; [done|]. right. by split.
  - destruct (Hrec c ltac:(left)) as [[x|] Hc]; rewrite Hc; cbn.
    + exists (Some x). split; [done|]. left. by exists [], c, chs, x.
    + destruct IH as (r & -> & Hr); [intros; apply Hrec; by right|].
      exists r. split; [done|].
      destruct Hr as [(pre & c' & post & x & -> & Hpre & Hc' & ->)|[Hall ->]].
      * left. exists (c :: pre), c', post, x. split; [done|].
        split; [by constructor|done].
      * right. split; [by constructor|done].
Qed.

Lemma find_node_at_total (σ : heap) d n at_ :
  tree_ok σ d n = true → is_Some (find_node_at leaf_find_node_at σ d n at_).
Proof.
  revert n. induction d as [|d IH]; intros n Hok; [done|].
  cbn [tree_ok] in Hok. cbn [find_node_at].
  destruct (σ !! n) as [nd|]; [|done]. cbn.
  destruct (is_inner (cls nd)); [|by eexists].
  destruct (find_in_children_inv (λ ch, find_node_at leaf_find_node_at σ d ch at_)
              (children nd)) as (r & Hr & _); [|by eexists].
  intros c Hc. apply IH.
  apply (proj1 (forallb_forall _ _) Hok), list_elem_of_In, Hc.
Qed.

Lemma only_inner_tree_ok (σ : heap) d n :
  only_inner σ d n = true → tree_ok σ d n = true.
Proof.
  revert n. induction d as [|d IH]; intros n Ho; [done|].
  cbn in Ho |- *. destruct (σ !! n) as [nd|]; [|done].
  apply andb_true_iff in Ho as [-> Hch].
  apply forallb_forall. intros c Hc. apply IH.
  by apply (proj1 (forallb_forall _ _) Hch).
Qed.

(** A tree without leaves matches no point. *)
Lemma find_node_at_only_inner (σ : heap) d n at_ :
  only_inner σ d n = true →
  find_node_at leaf_find_node_at σ d n at_ = Some None.
Proof.
  revert n. induction d as [|d IH]; intros n Ho; [done|].
  cbn in Ho |- *. destruct (σ !! n) as [nd|]; [|done]. cbn.
  apply andb_true_iff in Ho as [-> Hch].
  assert (Forall (λ c, only_inner σ d c = true) (children nd)) as Hall.
  { apply Forall_forall. intros c Hc.
    by apply (proj1 (forallb_forall _ _) Hch), list_elem_of_In. }
  clear Hch. induction Hall as [|c chs Hc _ IHc]; [done|].
  cbn. rewrite (IH c Hc). cbn. apply IHc.
Qed.

(** C6. [find_node_at] on an inner node of a tree asks the children in
    list order and returns the answer of the first child with a
    non-empty answer, or empty when every child answers empty. When the
    tree below the node has no leaf (as below a root whose output nodes
    have empty static and dynamic regions) the answer is empty for every
    point. *)
Theorem find_node_at_first_match (σ : heap) d n nd (at_ : pointf_t) :
  σ !! n = Some nd →
  is_inner (cls nd) = true →
  tree_ok σ (S d) n = true →
  ∃ r,
    find_node_at leaf_find_node_at σ (S d) n at_ = Some r ∧
    ((∃ pre c post x,
        children nd = pre ++ c :: post ∧
        Forall (λ p, find_node_at leaf_find_node_at σ d p at_ = Some None) pre ∧
        find_node_at leaf_find_node_at σ d c at_ = Some (Some x) ∧
        r = Some x) ∨
     (Forall (λ c, find_node_at leaf_find_node_at σ d c at_ = Some None) (children nd) ∧
      r = None)) ∧
    (only_inner σ (S d) n = true → r = None).
Proof.
  intros Hn Hin Hok.
  destruct (find_in_children_inv (λ ch, find_node_at leaf_find_node_at σ d ch at_)
              (children nd)) as (r & Hr & Hcases).
  { intros c Hc. apply find_node_at_total.
    cbn in Hok. rewrite Hn, Hin in Hok.
    apply (proj1 (forallb_forall _ _) Hok), list_elem_of_In, Hc. }
  assert (find_node_at leaf_find_node_at σ (S d) n at_ = Some r) as Hf.
  { cbn. rewrite Hn. cbn. by rewrite Hin. }
  exists r. split; [done|]. split; [done|].
  intros Ho. apply (find_node_at_only_inner σ (S d) n at_) in Ho. congruence.
Qed.

End find_node_props.

(** ** Construction of the root *)

Lemma alloc_fresh (σ : heap) nd :
  σ !! (alloc σ nd).1 = None ∧ (alloc σ nd).2 = <[(alloc σ nd).1 := nd]> σ.
Proof.
  split; [|done]. cbn. apply not_elem_of_dom, is_fresh.
Qed.

Section root_construction.
Variable default_flags : Z.

Abbreviation layer_node :=
  (mk_node true None default_flags [] floating_inner_node_t).

(** The loop of the constructor: [ids] lists the allocated nodes by
    layer index; they are pushed to the child list from the highest
    index down. *)
Lemma root_layers_loop_spec n (σ : heap) layers chs σ' layers' chs' :
  n ≤ length layers →
  root_layers_loop default_flags n σ layers chs = (σ', layers', chs') →
  ∃ ids,
    length ids = n ∧
    layers' = (Some <$> ids) ++ drop n layers ∧
    chs' = chs ++ reverse ids ∧
    NoDup ids ∧
    Forall (λ l, σ !! l = None ∧ σ' !! l = Some layer_node) ids ∧
    (∀ x, x ∉ ids → σ' !! x = σ !! x).
Proof.
  revert σ layers chs. induction n as [|i IH]; intros σ layers chs Hlen Hloop.
  - cbn in Hloop. simplify_eq. exists []. rewrite drop_0, app_nil_r.
    split; [done|]. split; [done|]. split; [done|].
    split; [apply NoDup_nil_2|]. split; [constructor|done].
  - cbn [root_layers_loop] in Hloop. unfold make_floating_inner_node in Hloop.
    destruct (alloc_fresh σ (new_node default_flags true floating_inner_node_t))
      as [Hfresh Hσ1].
    destruct (alloc σ (new_node default_flags true floating_inner_node_t)) as [l σ1].
    cbn in Hfresh, Hσ1. subst σ1.
    apply IH in Hloop as (ids & Hlen' & -> & -> & Hnd & Hall & Hout);
      [|rewrite length_insert; lia].
    assert (l ∉ ids) as Hl.
    { intros Hin. rewrite Forall_forall in Hall.
      destruct (Hall l Hin) as [Hnone _]. by rewrite lookup_insert_eq in Hnone. }
    exists (ids ++ [l]). split; [rewrite length_app; cbn; lia|].
    split; [|split; [|split; [|split]]].
    + rewrite fmap_app, <- app_assoc. f_equal. cbn.
      rewrite (drop_S (<[i:=Some l]> layers) (Some l) i)
        by (apply list_lookup_insert_eq; lia).
      by rewrite drop_insert_lt by lia.
    + by rewrite reverse_app, <- app_assoc.
    + apply NoDup_app. split; [done|]. split; [|apply NoDup_singleton].
      intros x Hx ->%list_elem_of_singleton. done.
    + apply Forall_app. split.
      * eapply Forall_impl; [exact Hall|]. intros x [Hx1 Hx2]. split; [|done].
        destruct (decide (l = x)) as [->|]; [by rewrite lookup_insert_eq in Hx1|].
        by rewrite lookup_insert_ne in Hx1.
      * constructor; [|constructor]. split; [done|].
        rewrite Hout by done. by rewrite lookup_insert_eq.
    + intros x Hx. rewrite not_elem_of_app, not_elem_of_cons in Hx.
      destruct Hx as [Hx1 [Hx2 _]]. rewrite Hout by done.
      by rewrite lookup_insert_ne.
Qed.

(** What the constructor of the root builds, on any heap: [ids] are the
    layer nodes by layer index. *)
Lemma make_root_node_spec (σ : heap) :
  ∃ root σ' nd ids,
    make_root_node default_flags σ = Some (root, σ') ∧
    σ !! root = None ∧
    σ' !! root = Some nd ∧
    nd = mk_node true None default_flags (reverse ids)
           (root_node_t (Some <$> ids) (mk_priv [])) ∧
    length ids = ALL_LAYERS ∧
    NoDup (root :: ids) ∧
    Forall (λ l, σ !! l = None ∧
                 σ' !! l = Some (with_parent root layer_node)) ids ∧
    (∀ x, x ∉ root :: ids → σ' !! x = σ !! x).
Proof.
  unfold make_root_node.
  set (root_nd := new_node default_flags true
                    (root_node_t (replicate ALL_LAYERS None) (mk_priv []))).
  destruct (alloc_fresh σ root_nd) as [Hfresh Hσ0].
  destruct (alloc σ root_nd) as [root σ0]. cbn in Hfresh, Hσ0. subst σ0.
  destruct (root_layers_loop default_flags ALL_LAYERS (<[root:=root_nd]> σ)
              (replicate ALL_LAYERS None) []) as [[σ1 layers] chs] eqn:Hloop.
  apply root_layers_loop_spec in Hloop as (ids & Hlen & -> & -> & Hnd & Hall & Hout);
    [|by rewrite length_replicate].
  rewrite drop_replicate, Nat.sub_diag, app_nil_r. cbn [replicate app].
  assert (root ∉ ids) as Hroot.
  { intros Hin. rewrite Forall_forall in Hall.
    destruct (Hall root Hin) as [Hnone _]. by rewrite lookup_insert_eq in Hnone. }
  set (nd1 := with_cls (root_node_t (Some <$> ids) (mk_priv [])) root_nd).
  set (σ2 := alter (with_cls (root_node_t (Some <$> ids) (mk_priv []))) root σ1).
  assert (σ1 !! root = Some root_nd) as Hσ1root
    by (rewrite Hout by done; apply lookup_insert_eq).
  assert (σ2 !! root = Some nd1) as Hσ2root.
  { unfold σ2. rewrite lookup_alter_eq, Hσ1root. done. }
  assert (∀ x, x ≠ root → σ2 !! x = σ1 !! x) as Hσ2other.
  { intros x Hx. unfold σ2. by rewrite lookup_alter_ne. }
  destruct (set_children_unchecked_lookup σ2 root nd1 (reverse ids) Hσ2root eq_refl)
    as (σ3 & Hσ3 & Hl3).
  { apply Forall_reverse, Forall_forall. intros x Hx.
    rewrite Forall_forall in Hall. destruct (Hall x Hx) as [_ Hx2].
    exists layer_node. rewrite Hσ2other; [done|]. intros ->. done. }
  rewrite Hσ3. cbn.
  assert (root ∉ reverse ids) as Hroot' by (by rewrite elem_of_reverse).
  eexists root, _, _, ids. split; [done|]. split; [done|].
  split; [|split; [done|split; [done|split; [|split]]]].
  - rewrite lookup_alter_eq, Hl3, decide_True by done.
    rewrite decide_False by done. done.
  - by constructor.
  - apply Forall_forall. intros x Hx.
    rewrite Forall_forall in Hall. destruct (Hall x Hx) as [Hx1 Hx2].
    assert (x ≠ root) as Hne by (intros ->; done).
    split; [by rewrite lookup_insert_ne in Hx1|].
    rewrite lookup_alter_ne by done. rewrite Hl3, decide_False by done.
    rewrite decide_True by (by rewrite elem_of_reverse).
    rewrite Hσ2other, Hx2 by done. done.
  - intros x Hx. rewrite not_elem_of_cons in Hx. destruct Hx as [Hne Hx].
    rewrite lookup_alter_ne by done. rewrite Hl3, decide_False by done.
    rewrite decide_False by (by rewrite elem_of_reverse).
    rewrite Hσ2other, Hout by done. by rewrite lookup_insert_ne.
Qed.

End root_construction.

(** C5 (as the code has it). On any heap the constructor of the root
    returns a new structural floating node that keeps, for each layer of
    the enumeration, one newly made structural floating inner node
    without children whose parent is the root, different layers having
    different nodes; the child list of the root is made of exactly these
    nodes, ordered from the highest layer of the enumeration (minimized)
    down to the lowest (background). *)
Theorem make_root_node_layers (default_flags : Z) (σ : heap) :
  ∃ root σ' nd,
    make_root_node default_flags σ = Some (root, σ') ∧
    σ !! root = None ∧
    σ' !! root = Some nd ∧
    _is_structure nd = true ∧
    is_floating (cls nd) = true ∧
    children_highest_first nd ∧
    length (children nd) = length all_layers ∧
    NoDup (children nd) ∧
    (∀ l, ∃ id,
       layer_node_of nd l = Some id ∧
       id ≠ root ∧
       σ !! id = None ∧
       σ' !! id = Some (mk_node true (Some root) default_flags []
                          floating_inner_node_t)) ∧
    (∀ l1 l2, layer_node_of nd l1 = layer_node_of nd l2 → l1 = l2).
Proof.
  destruct (make_root_node_spec default_flags σ)
    as (root & σ' & nd & ids & Hmk & Hfresh & Hroot & -> & Hlen & Hnd & Hall & _).
  eexists root, σ', _. split; [done|]. split; [done|]. split; [done|].
  unfold ALL_LAYERS in Hlen.
  assert (∀ l1 l2,
    layer_node_of (mk_node true None default_flags (reverse ids)
                     (root_node_t (Some <$> ids) (mk_priv []))) l1
    = layer_node_of (mk_node true None default_flags (reverse ids)
                     (root_node_t (Some <$> ids) (mk_priv []))) l2 → l1 = l2) as Hinj.
  { intros l1 l2. unfold layer_node_of. cbn [cls].
    rewrite !list_lookup_fmap.
    destruct (lookup_lt_is_Some_2 ids (layer_index l1)) as [x Hx];
      [rewrite Hlen; destruct l1; cbn; lia|].
    rewrite Hx. cbn. destruct (ids !! layer_index l2) as [y|] eqn:Hy; [|done].
    cbn. intros [= <-]. apply NoDup_cons in Hnd as [_ Hnd].
    pose proof (NoDup_lookup _ _ _ _ Hnd Hx Hy) as Hi.
    destruct l1, l2; done. }
  do 8 (destruct ids as [|? ids]; [discriminate Hlen|]).
  destruct ids as [|? ids]; [|discriminate Hlen]. clear Hlen.
  split; [done|]. split; [done|]. split; [done|]. split; [done|].
  apply NoDup_cons in Hnd as [Hr Hnd].
  split; [cbn [children]; by rewrite reverse_Permutation|]. split.
  - intros l. rewrite Forall_forall in Hall.
    assert (∀ id, id ∈ [p; p0; p1; p2; p3; p4; p5; p6] →
      id ≠ root ∧ σ !! id = None ∧
      σ' !! id = Some (mk_node true (Some root) default_flags [] floating_inner_node_t))
      as Hid.
    { intros id Hin. destruct (Hall id Hin) as [? ?].
      split; [intros ->; done|done]. }
    destruct l; eexists; (split; [reflexivity|]); apply Hid;
      apply list_elem_of_In; simpl; tauto.
  - exact Hinj.
Qed.

(** C5 (as it is claimed) fails on the empty heap: the child list of the
    new root is not ordered from the lowest layer to the highest. *)
Lemma make_root_node_not_lowest_first :
  ¬ (∀ root σ' nd,
       make_root_node 0 (∅ : heap) = Some (root, σ') →
       σ' !! root = Some nd →
       children_lowest_first nd).
Proof.
  intros Hclaim.
  destruct (make_root_node 0 (∅ : heap)) as [[root σ']|] eqn:Hmk; [|by vm_compute in Hmk].
  destruct (σ' !! root) as [nd|] eqn:Hnd;
    [|vm_compute in Hmk; injection Hmk as <- <-; by vm_compute in Hnd].
  specialize (Hclaim root σ' nd eq_refl Hnd).
  vm_compute in Hmk. injection Hmk as <- <-.
  vm_compute in Hnd. injection Hnd as <-.
  vm_compute in Hclaim. discriminate Hclaim.
Qed.

(** ** The theorems at work on the two scenes *)

Import Scenario.

Example build_views_ids :
  build_views = Some (root, workspace, view_a, view_b, views_scene).
Proof. vm_compute. reflexivity. Qed.

Example build_outputs_ids :
  build_outputs = Some (root, workspace, outputs_scene).
Proof. vm_compute. reflexivity. Qed.

(** Swapping the two views of the workspace layer is accepted, the
    structural subsequence (empty on both sides) being preserved. *)
Lemma set_children_list_iff_structure_witness :
  ∃ σ', set_children_list views_scene workspace [view_b; view_a] = Some (true, σ') ∧
        children_of σ' workspace = Some [view_b; view_a].
Proof.
  destruct (set_children_list_iff_structure views_scene workspace _ [view_b; view_a]
              eq_refl eq_refl) as (ok & σ' & Hs & Hiff & _ & Hok).
  - compute_done.
  - compute_done.
  - assert (ok = true) as -> by (apply Hiff; vm_compute; reflexivity).
    exists σ'. split; [exact Hs|]. apply Hok. reflexivity.
Defined.

(** Dropping view A from the workspace layer: A keeps its parent
    pointer, the layer no longer lists it. *)
Lemma set_children_unchecked_parents_witness :
  ∃ σ', set_children_unchecked views_scene workspace [view_b] = Some σ' ∧
        parent_of σ' view_a = Some (Some workspace) ∧
        children_of σ' workspace = Some [view_b].
Proof.
  destruct (set_children_unchecked_parents views_scene workspace _ [view_b]
              eq_refl eq_refl) as (σ' & Hs & Hch & _ & _ & Hkeep & _).
  - compute_done.
  - exists σ'. split; [exact Hs|]. split; [|exact Hch].
    apply (Hkeep view_a); [compute_done|compute_done|reflexivity].
Defined.

(** The collector on the root of the first scene: the root is handed to
    the callback first. *)
Lemma inner_visit_protocol_witness :
  ∃ r v' t,
    visit (tracing (collect_active_nodes_t ACTIVE_KEYBOARD)) views_scene 3 root ([], [])
    = Some (r, (v', root :: t)).
Proof.
  destruct (inner_visit_protocol (collect_active_nodes_t ACTIVE_KEYBOARD)
              views_scene 2 root _ [] eq_refl eq_refl eq_refl)
    as (r & v' & t & _ & Ht & _).
  exists r, v', t. exact Ht.
Defined.

(** The first [update()] of the first scene: view A is entered, view B
    is not, nothing is left. *)
Lemma update_notifications_witness :
  ∃ L E σ',
    update ACTIVE_KEYBOARD (call_log unit) views_scene 3 root []
    = Some (σ', (keyboard_leave <$> L) ++ (keyboard_enter <$> E)) ∧
    view_a ∈ E ∧ (view_b ∉ E) ∧ (view_a ∉ L).
Proof.
  destruct (update_notifications ACTIVE_KEYBOARD (call_log unit) views_scene 3 root
              _ _ _ [] eq_refl eq_refl eq_refl)
    as (L & E & _ & Hlog & _ & _ & HL & HE & _).
  eexists L, E, _. split; [exact Hlog|].
  rewrite !HE, HL. split; [compute_done|]. split; compute_done.
Defined.

(** A second [update()] of the first scene calls no handler. *)
Lemma update_idempotent_witness :
  ∃ σ1 log1,
    update ACTIVE_KEYBOARD (call_log unit) views_scene 3 root [] = Some (σ1, log1) ∧
    update ACTIVE_KEYBOARD (call_log unit) σ1 3 root [] = Some (σ1, []).
Proof.
  destruct (update ACTIVE_KEYBOARD (call_log unit) views_scene 3 root [])
    as [[σ1 log1]|] eqn:Hup; [|vm_compute in Hup; discriminate Hup].
  exists σ1, log1. split; [reflexivity|].
  destruct (update_idempotent ACTIVE_KEYBOARD (call_log unit) views_scene 3 root []
              σ1 log1 Hup) as (_ & Hlog & _).
  exact Hlog.
Defined.

(** Two collection passes over the first scene, with different budgets. *)
Lemma traversal_deterministic_witness :
  ∃ r1 r2,
    visit (collect_active_nodes_t ACTIVE_KEYBOARD) views_scene 3 root [] = Some r1 ∧
    visit (collect_active_nodes_t ACTIVE_KEYBOARD) views_scene 5 root [] = Some r2 ∧
    r1.2 = r2.2 ∧ length r1.2 = length r2.2.
Proof.
  eexists _, _. split; [vm_compute; reflexivity|]. split; [vm_compute; reflexivity|].
  destruct (traversal_deterministic ACTIVE_KEYBOARD views_scene views_scene root 3 5
              (ALL, [view_a]) (ALL, [view_a]) (λ x, eq_refl) eq_refl eq_refl)
    as (Heq & Hlen & _).
  split; [exact Heq|exact Hlen].
Defined.

(** The root with two empty output nodes matches no point. *)
Lemma find_node_at_first_match_witness :
  find_node_at (λ _ _ (_ : Z * Z), Some tt) outputs_scene 4 root (3, 4)%Z = Some None.
Proof.
  destruct (find_node_at_first_match (λ _ _ (_ : Z * Z), Some tt) outputs_scene 3 root
              _ (3, 4)%Z eq_refl eq_refl eq_refl) as (r & Hr & _ & Hnone).
  rewrite Hr. f_equal. apply Hnone. reflexivity.
Defined.

End SceneProps.

(** * Properties of the IPC layer names *)

Module IpcProps.
Import Ipc IpcSpec.

Local Open Scope string_scope.
Local Open Scope Z_scope.

Lemma foldl_snoc_map {A B} (f : A → B) (l : list A) (acc : list B) :
  foldl (λ response a, (response ++ [f a])%list) acc l = (acc ++ (f <$> l))%list.
Proof.
  revert acc. induction l as [|a l IH]; intros acc; cbn.
  - by rewrite app_nil_r.
  - by rewrite IH, <- app_assoc.
Qed.

Section layer_names.
Variables LAYER_BACKGROUND LAYER_BOTTOM LAYER_WORKSPACE LAYER_TOP : Z.
Variables LAYER_UNMANAGED LAYER_LOCK LAYER_DESKTOP_WIDGET LAYER_MINIMIZED : Z.
Context {output_t : Type}.
Variable get_view_layer : output_t → view_t output_t → Z.

Abbreviation labels :=
  (to_uint32 <$> [LAYER_BACKGROUND; LAYER_BOTTOM; LAYER_WORKSPACE; LAYER_TOP;
                  LAYER_UNMANAGED; LAYER_LOCK; LAYER_DESKTOP_WIDGET;
                  LAYER_MINIMIZED]).
Abbreviation to_string :=
  (layer_to_string LAYER_BACKGROUND LAYER_BOTTOM LAYER_WORKSPACE LAYER_TOP
     LAYER_UNMANAGED LAYER_LOCK LAYER_DESKTOP_WIDGET LAYER_MINIMIZED).

Lemma layer_to_string_name layer : to_string layer ∈ layer_names.
Proof.
  unfold layer_to_string, layer_names.
  repeat case_decide; apply list_elem_of_In; simpl; tauto.
Qed.

Lemma view_to_json_layer view :
  layer_field
    (view_to_json LAYER_BACKGROUND LAYER_BOTTOM LAYER_WORKSPACE LAYER_TOP
       LAYER_UNMANAGED LAYER_LOCK LAYER_DESKTOP_WIDGET LAYER_MINIMIZED
       get_view_layer view)
  = Some (to_string (match output view with
                     | Some o => to_uint32 (get_view_layer o view)
                     | None => to_uint32 (-1)
                     end)).
Proof. done. Qed.

(** C10. Every entry of the response of [list_views] has a ["layer"]
    field that is one of the nine names; it is the name of the layer
    [get_view_layer] gives, or of the sentinel [-1] for a view without
    output, which is reported as "none" as long as no layer constant
    converts to that sentinel. With distinct case labels the
    desktop-widget layer is reported as "dew", and a value that is no
    case label is reported as "none". *)
Theorem list_views_layer_names (all_views : list (view_t output_t)) :
  NoDup labels →
  to_uint32 (-1) ∉ labels →
  (∃ items,
     list_views LAYER_BACKGROUND LAYER_BOTTOM LAYER_WORKSPACE LAYER_TOP
       LAYER_UNMANAGED LAYER_LOCK LAYER_DESKTOP_WIDGET LAYER_MINIMIZED
       get_view_layer all_views = JArr items ∧
     length items = length all_views ∧
     ∀ i view, all_views !! i = Some view →
       ∃ entry s,
         items !! i = Some entry ∧
         layer_field entry = Some s ∧
         s ∈ layer_names ∧
         s ≠ "desktop-widget" ∧
         (∀ o, output view = Some o → s = to_string (to_uint32 (get_view_layer o view))) ∧
         (output view = None → s = "none")) ∧
  to_string (to_uint32 LAYER_DESKTOP_WIDGET) = "dew" ∧
  (∀ layer, layer ∉ labels → to_string layer = "none").
Proof.
  intros Hdistinct Hsentinel.
  assert (∀ layer, layer ∉ labels → to_string layer = "none") as Hnone.
  { intros layer Hl. cbn in Hl. rewrite !not_elem_of_cons in Hl.
    unfold layer_to_string. repeat case_decide; tauto. }
  split; [|split; [|done]].
  - eexists. split; [unfold list_views; by rewrite foldl_snoc_map|].
    cbn [app]. split; [by rewrite length_fmap|].
    intros i view Hi. eexists _, _. split; [|split; [|split; [|split; [|split]]]].
    + rewrite list_lookup_fmap, Hi. done.
    + apply view_to_json_layer.
    + apply layer_to_string_name.
    + intros Heq. pose proof (layer_to_string_name
        (match output view with
         | Some o => to_uint32 (get_view_layer o view)
         | None => to_uint32 (-1)
         end)) as Hin.
      rewrite Heq in Hin. unfold layer_names in Hin.
      apply list_elem_of_In in Hin. simpl in Hin.
      repeat (destruct Hin as [Hin|Hin]; [discriminate Hin|]). done.
    + intros o ->. done.
    + intros ->. by apply Hnone.
  - cbn in Hdistinct. repeat (apply NoDup_cons in Hdistinct as [? Hdistinct]).
    rewrite !not_elem_of_cons in *.
    unfold layer_to_string. repeat case_decide; try done; exfalso; intuition congruence.
Qed.

End layer_names.

(** The constants as the compositor's headers have them: one bit per
    layer, from bit 0. *)
Lemma list_views_layer_names_witness :
  layer_to_string 1 2 4 8 16 32 64 128 (to_uint32 64) = "dew" ∧
  layer_field (view_to_json 1 2 4 8 16 32 64 128 (λ (_ : unit) _, 64)
                 (mk_view "term" "foot" (mk_geometry 0 0 10 10)
                    (mk_geometry 0 0 10 10) 0 false false None))
  = Some "none".
Proof.
  pose proof (list_views_layer_names 1 2 4 8 16 32 64 128 (λ (_ : unit) _, 64)
    [mk_view "term" "foot" (mk_geometry 0 0 10 10) (mk_geometry 0 0 10 10) 0 false false None]) as H.
  destruct H as [_ [Hdew _]].
  - compute_done.
  - compute_done.
  - split; [exact Hdew|]. vm_compute. reflexivity.
Defined.

End IpcProps.
(** * Further properties of the scene graph *)

Module SceneExtra.
Import Scene SceneSpec SceneNotions SceneProps.

(** ** What a traversal visits *)

Lemma preorder_elem_reachable (σ : heap) d n x :
  x ∈ preorder σ d n → reachable σ n x.
Proof.
  revert n. induction d as [|d IH]; intros n Hx; cbn in Hx; [by apply elem_of_nil in Hx|].
  destruct (σ !! n) as [nd|] eqn:Hn; [|by apply elem_of_nil in Hx].
  apply elem_of_cons in Hx as [->|Hx]; [constructor|].
  destruct (is_inner (cls nd)) eqn:Hin; [|by apply elem_of_nil in Hx].
  apply list_elem_of_In, in_flat_map in Hx as (c & Hc & Hx).
  eapply reach_child; [done|done|by apply list_elem_of_In|].
  by apply IH, list_elem_of_In.
Qed.

Section traces.
Context {V : Type}.
Variable vis : visitor_t V.

Lemma visit_children_sublist (σ : heap) d chs :
  (∀ c s r s', visit (tracing vis) σ d c s = Some (r, s') →
     ∃ t, s'.2 = s.2 ++ t ∧ t `sublist_of` preorder σ d c) →
  ∀ s r s', visit_children (visit (tracing vis) σ d) chs s = Some (r, s') →
    ∃ t, s'.2 = s.2 ++ t ∧ t `sublist_of` flat_map (preorder σ d) chs.
Proof.
  intros Hrec. induction chs as [|c chs IH]; intros s r s' Hv; cbn in Hv.
  - simplify_eq. exists []. by rewrite app_nil_r.
  - destruct (visit (tracing vis) σ d c s) as [[i s1]|] eqn:Hc; [|done].
    destruct (Hrec _ _ _ _ Hc) as (t1 & Ht1 & Hs1). cbn in Hv, Ht1.
    assert (visit_children (visit (tracing vis) σ d) chs s1 = Some (r, s') →
            ∃ t, s'.2 = s.2 ++ t ∧ t `sublist_of` flat_map (preorder σ d) (c :: chs))
      as Hstep.
    { intros Hrest. destruct (IH _ _ _ Hrest) as (t2 & Ht2 & Hs2).
      exists (t1 ++ t2). split; [by rewrite Ht2, Ht1, app_assoc|].
      cbn. by apply sublist_app. }
    destruct i; [|by apply Hstep..].
    simplify_eq. exists t1. split; [done|]. cbn. by apply sublist_inserts_r.
Qed.

Lemma visit_trace_sublist (σ : heap) d n s r s' :
  visit (tracing vis) σ d n s = Some (r, s') →
  ∃ t, s'.2 = s.2 ++ t ∧ t `sublist_of` preorder σ d n.
Proof.
  revert n s r s'. induction d as [|d IH]; intros n s r s' Hv; [done|].
  cbn [visit preorder] in Hv |- *.
  destruct (σ !! n) as [nd|]; [|done]. cbn [mbind option_bind] in Hv.
  destruct (is_inner (cls nd)).
  - cbn in Hv. destruct (inner_node vis n nd s.1).1.
    + simplify_eq. exists [n]. split; [done|]. apply sublist_skip, sublist_nil_l.
    + simplify_eq. exists [n]. split; [done|]. apply sublist_skip, sublist_nil_l.
    + apply (visit_children_sublist σ d (children nd) IH) in Hv as (t & Ht & Hs).
      exists (n :: t). split; [cbn in Ht; by rewrite Ht, <- app_assoc|].
      by apply sublist_skip.
  - unfold visit_leaf in Hv. exists [n]. split; [|done].
    destruct (cls nd); cbn in Hv; by simplify_eq.
Qed.

Hypothesis never_skips : ∀ n nd v, (inner_node vis n nd v).1 ≠ SKIP_CHILDREN.

Lemma visit_children_prefix (σ : heap) d chs :
  (∀ c s r s', visit (tracing vis) σ d c s = Some (r, s') →
     ∃ t, s'.2 = s.2 ++ t ∧
          (r = STOP → t `prefix_of` preorder σ d c) ∧
          (r ≠ STOP → t = preorder σ d c)) →
  ∀ s r s', visit_children (visit (tracing vis) σ d) chs s = Some (r, s') →
    ∃ t, s'.2 = s.2 ++ t ∧
         (r = STOP → t `prefix_of` flat_map (preorder σ d) chs) ∧
         (r ≠ STOP → t = flat_map (preorder σ d) chs).
Proof.
  intros Hrec. induction chs as [|c chs IH]; intros s r s' Hv; cbn in Hv.
  - simplify_eq. exists []. rewrite app_nil_r. split; [done|]. split; [done|done].
  - destruct (visit (tracing vis) σ d c s) as [[i s1]|] eqn:Hc; [|done].
    destruct (Hrec _ _ _ _ Hc) as (t1 & Ht1 & Hstop & Hfull). cbn in Hv, Ht1.
    assert (i ≠ STOP → visit_children (visit (tracing vis) σ d) chs s1 = Some (r, s') →
            ∃ t, s'.2 = s.2 ++ t ∧
              (r = STOP → t `prefix_of` flat_map (preorder σ d) (c :: chs)) ∧
              (r ≠ STOP → t = flat_map (preorder σ d) (c :: chs))) as Hstep.
    { intros Hi Hrest. destruct (IH _ _ _ Hrest) as (t2 & Ht2 & Hstop2 & Hfull2).
      exists (t1 ++ t2). split; [by rewrite Ht2, Ht1, app_assoc|].
      rewrite (Hfull Hi). cbn. split.
      - intros Hr. by apply prefix_app, Hstop2.
      - intros Hr. by rewrite (Hfull2 Hr). }
    destruct i; [|by apply Hstep..].
    simplify_eq. exists t1. split; [done|]. split; [|done].
    intros _. cbn. by apply prefix_app_r, Hstop.
Qed.

Lemma visit_trace_prefix (σ : heap) d n s r s' :
  visit (tracing vis) σ d n s = Some (r, s') →
  ∃ t, s'.2 = s.2 ++ t ∧
       (r = STOP → t `prefix_of` preorder σ d n) ∧
       (r ≠ STOP → t = preorder σ d n).
Proof.
  revert n s r s'. induction d as [|d IH]; intros n s r s' Hv; [done|].
  cbn [visit preorder] in Hv |- *.
  destruct (σ !! n) as [nd|]; [|done]. cbn [mbind option_bind] in Hv.
  destruct (is_inner (cls nd)).
  - cbn in Hv. pose proof (never_skips n nd s.1) as Hns.
    destruct (inner_node vis n nd s.1).1; [|done|].
    + simplify_eq. exists [n]. split; [done|]. split; [|done].
      intros _. apply prefix_cons, prefix_nil.
    + apply (visit_children_prefix σ d (children nd) IH) in Hv as (t & Ht & Hstop & Hfull).
      exists (n :: t). split; [cbn in Ht; by rewrite Ht, <- app_assoc|]. split.
      * intros Hr. by apply prefix_cons, Hstop.
      * intros Hr. by rewrite (Hfull Hr).
  - unfold visit_leaf in Hv. exists [n].
    split; [destruct (cls nd); cbn in Hv; by simplify_eq|].
    split; [intros _; done|done].
Qed.
End traces.

(** X1. A traversal of a tree, whatever the visitor answers, hands it
    the start node first and then only nodes reachable from it, in an
    order that is a subsequence of the pre-order listing. *)
Theorem visit_trace_in_preorder {V : Type} (vis : visitor_t V) (σ : heap) d n v :
  tree_ok σ d n = true →
  ∃ r v' t,
    visit (tracing vis) σ d n (v, []) = Some (r, (v', n :: t)) ∧
    (n :: t) `sublist_of` preorder σ d n ∧
    (∀ x, x ∈ n :: t → reachable σ n x).
Proof.
  intros Hok.
  destruct (visit_total (tracing vis) σ d n (v, []) Hok) as [[r [v' t']] Hv].
  destruct (visit_tracing vis _ _ _ _ _ _ Hv) as [_ [t Ht]]. cbn in Ht. subst t'.
  destruct (visit_trace_sublist vis _ _ _ _ _ _ Hv) as (t' & Ht' & Hsub).
  cbn in Ht'. subst t'. exists r, v', t. split; [done|]. split; [done|].
  intros x Hx. eapply preorder_elem_reachable, elem_of_sublist; done.
Qed.

(** X2. A visitor that never answers SKIP_CHILDREN on an inner node is
    handed, on a tree, the whole pre-order listing when the traversal
    does not answer STOP, and a prefix of that listing when it does. *)
Theorem visit_trace_prefix_of_preorder {V : Type} (vis : visitor_t V) (σ : heap) d n v :
  (∀ x nd w, (inner_node vis x nd w).1 ≠ SKIP_CHILDREN) →
  tree_ok σ d n = true →
  ∃ r v' t,
    visit (tracing vis) σ d n (v, []) = Some (r, (v', t)) ∧
    (r = STOP → t `prefix_of` preorder σ d n) ∧
    (r ≠ STOP → t = preorder σ d n).
Proof.
  intros Hns Hok.
  destruct (visit_total (tracing vis) σ d n (v, []) Hok) as [[r [v' t']] Hv].
  destruct (visit_trace_prefix vis Hns _ _ _ _ _ _ Hv) as (t & Ht & Hstop & Hfull).
  cbn in Ht. subst t'. by exists r, v', t.
Qed.

(** ** Cycles *)

Section cycles.
Variable ACTIVE_KEYBOARD : Z.
Abbreviation collector := (collect_active_nodes_t ACTIVE_KEYBOARD).

Lemma collect_children_none (σ : heap) d chs c :
  c ∈ chs →
  (∀ acc, visit collector σ d c acc = None) →
  ∀ acc, visit_children (visit collector σ d) chs acc = None.
Proof.
  intros Hc Hnone. induction chs as [|c' chs IH]; intros acc; [by apply elem_of_nil in Hc|].
  cbn. destruct (decide (c' = c)) as [->|Hne]; [by rewrite Hnone|].
  destruct (visit collector σ d c' acc) as [[i a]|] eqn:Hv; [|done]. cbn.
  apply collect_never_stops in Hv. cbn in Hv. subst i.
  apply IH. apply elem_of_cons in Hc as [?|?]; [congruence|done].
Qed.

(** A chain of child links at least as long as the budget uses it up. *)
Lemma collect_chain_none (σ : heap) d n acc :
  has_chain σ d n → visit collector σ d n acc = None.
Proof.
  revert n acc. induction d as [|d IH]; intros n acc Hch; [done|].
  destruct Hch as (c & (nd & Hn & Hin & Hc) & Hch).
  cbn [visit]. rewrite Hn. cbn. rewrite Hin.
  apply (collect_children_none σ d (children nd) c Hc). intros acc'. by apply IH.
Qed.

Lemma cycle_has_chain (σ : heap) n m k :
  rtc (child_of σ) m n → tc (child_of σ) n n → has_chain σ k m.
Proof.
  intros Hmn Hcyc. revert m Hmn. induction k as [|k IH]; intros m Hmn; [done|].
  destruct Hmn as [|m c n' Hstep Hrest].
  - inversion Hcyc as [? ? Hstep|? c ? Hstep Hrest]; subst.
    + eexists. split; [exact Hstep|]. by apply IH.
    + eexists. split; [exact Hstep|]. by apply IH, tc_rtc.
  - exists c. split; [done|]. by apply IH.
Qed.

(** X3. When a cycle of child links can be reached from a node, the
    collection pass started at that node does not return, whatever the
    recursion budget, and neither does [update()]. *)
Theorem collect_cycle_never_returns (σ : heap) root n :
  rtc (child_of σ) root n →
  tc (child_of σ) n n →
  ∀ fuel,
    (∀ acc, visit collector σ fuel root acc = None) ∧
    (∀ (E W : Type) (kb : keyboard_interaction_t E W) (w : W),
       update ACTIVE_KEYBOARD kb σ fuel root w = None).
Proof.
  intros Hreach Hcyc fuel.
  assert (∀ acc, visit collector σ fuel root acc = None) as Hnone.
  { intros acc. eapply collect_chain_none, cycle_has_chain; done. }
  split; [done|]. intros E W kb w. unfold update.
  destruct (σ !! root) as [nd|]; [|done]. cbn.
  destruct (cls nd); try done. unfold update_active_nodes. by rewrite Hnone.
Qed.
End cycles.

(** ** More on replacing a child list *)

(** The two outcomes of [set_children_list] on valid pointers, with the
    heap after a replacement cell by cell. *)
Lemma set_children_list_cases (σ : heap) this nd new_list :
  σ !! this = Some nd →
  is_floating (cls nd) = true →
  Forall (allocated σ) (children nd) →
  Forall (allocated σ) new_list →
  (structure_subseq σ (children nd) ≠ structure_subseq σ new_list ∧
   set_children_list σ this new_list = Some (false, σ)) ∨
  (structure_subseq σ (children nd) = structure_subseq σ new_list ∧
   ∃ σ', set_children_list σ this new_list = Some (true, σ') ∧
     ∀ x, σ' !! x =
       if decide (x = this) then
         Some (with_children new_list
                 (if decide (this ∈ new_list) then with_parent this nd else nd))
       else if decide (x ∈ new_list) then with_parent this <$> σ !! x
       else σ !! x).
Proof.
  intros Hthis Hfl Hold Hnew.
  assert (is_inner (cls nd) = true) as Hin by (by destruct (cls nd)).
  unfold set_children_list. rewrite Hthis. cbn. rewrite Hfl.
  rewrite !extract_structure_nodes_filter by done. cbn.
  case_bool_decide as Hne; [by left|]. right.
  split; [by destruct (decide (structure_subseq σ (children nd) = structure_subseq σ new_list))|].
  destruct (set_children_unchecked_lookup σ this nd new_list Hthis Hin Hnew)
    as (σ' & Hσ' & Hl).
  exists σ'. rewrite Hσ'. done.
Qed.

(** X4. [set_children_list] makes no cycle check: a proposed list that
    contains the node itself is accepted as soon as it keeps the
    structural subsequence. The node is then its own child and its own
    parent, and a collection pass started at it no longer returns. *)
Theorem set_children_list_accepts_self (ACTIVE_KEYBOARD : Z) (σ : heap) this nd new_list :
  σ !! this = Some nd →
  is_floating (cls nd) = true →
  Forall (allocated σ) (children nd) →
  Forall (allocated σ) new_list →
  structure_subseq σ (children nd) = structure_subseq σ new_list →
  this ∈ new_list →
  ∃ σ',
    set_children_list σ this new_list = Some (true, σ') ∧
    child_of σ' this this ∧
    parent_of σ' this = Some (Some this) ∧
    ∀ fuel acc,
      visit (collect_active_nodes_t ACTIVE_KEYBOARD) σ' fuel this acc = None.
Proof.
  intros Hthis Hfl Hold Hnew Hstruct Hself.
  destruct (set_children_list_cases σ this nd new_list Hthis Hfl Hold Hnew)
    as [[Hne _]|[_ (σ' & Hs & Hl)]]; [done|].
  assert (σ' !! this = Some (with_children new_list (with_parent this nd))) as Hσ'.
  { rewrite Hl, decide_True by done. by rewrite decide_True. }
  assert (child_of σ' this this) as Hchild.
  { eexists. split; [exact Hσ'|]. split; [cbn; by destruct (cls nd)|done]. }
  exists σ'. split; [done|]. split; [done|].
  split; [unfold parent_of; by rewrite Hσ'|].
  intros fuel acc.
  apply (collect_cycle_never_returns ACTIVE_KEYBOARD σ' this this);
    [constructor|by apply tc_once].
Qed.

(** ** Hit testing along the pre-order listing *)

Section hit_props.
Context {pointf_t input_node_t : Type}.
Variable leaf_find_node_at : node_id → node_t → pointf_t → option input_node_t.

Lemma first_answer_app (σ : heap) (at_ : pointf_t) l1 l2 :
  first_answer leaf_find_node_at σ at_ (l1 ++ l2)
  = match first_answer leaf_find_node_at σ at_ l1 with
    | Some a => Some a
    | None => first_answer leaf_find_node_at σ at_ l2
    end.
Proof.
  induction l1 as [|x l1 IH]; [done|]. cbn.
  by destruct (own_answer leaf_find_node_at σ at_ x).
Qed.

(** X5. On a tree [find_node_at] answers what the first leaf of the
    pre-order listing with a non-empty answer answers, and empty when
    there is no such leaf. *)
Theorem find_node_at_first_in_preorder (σ : heap) d n (at_ : pointf_t) :
  tree_ok σ d n = true →
  find_node_at leaf_find_node_at σ d n at_
  = Some (first_answer leaf_find_node_at σ at_ (preorder σ d n)).
Proof.
  revert n. induction d as [|d IH]; intros n Hok; [done|].
  cbn [tree_ok find_node_at preorder] in Hok |- *.
  destruct (σ !! n) as [nd|] eqn:Hn; [|done]. cbn [mbind option_bind].
  cbn [first_answer]. unfold own_answer at 1. rewrite Hn. cbn [mbind option_bind].
  destruct (is_inner (cls nd)) eqn:Hin.
  - assert (Forall (λ c, tree_ok σ d c = true) (children nd)) as Hall.
    { apply Forall_forall. intros c Hc.
      by apply (proj1 (forallb_forall _ _) Hok), list_elem_of_In. }
    clear Hok. induction Hall as [|c chs Hc _ IHc]; [done|].
    cbn [find_in_children flat_map]. rewrite (IH c Hc), first_answer_app. cbn.
    destruct (first_answer leaf_find_node_at σ at_ (preorder σ d c)); [done|].
    apply IHc.
  - cbn. by destruct (leaf_find_node_at n nd at_).
Qed.
End hit_props.

(** ** What a replacement leaves alone *)


(** The heap after a replacement, node by node: each cell is the old one
    up to its parent pointer and, for the node itself, its child list. *)
Lemma replacement_pointwise (σ σ' : heap) this nd new_list :
  σ !! this = Some nd →
  (∀ x, σ' !! x =
     if decide (x = this) then
       Some (with_children new_list
               (if decide (this ∈ new_list) then with_parent this nd else nd))
     else if decide (x ∈ new_list) then with_parent this <$> σ !! x
     else σ !! x) →
  ∀ x, ∃ f : node_t → node_t,
    σ' !! x = f <$> σ !! x ∧
    (∀ y, _is_structure (f y) = _is_structure y ∧ flags (f y) = flags y ∧
          cls (f y) = cls y ∧ (x ≠ this → children (f y) = children y)).
Proof.
  intros Hthis Hl x. rewrite Hl. destruct (decide (x = this)) as [->|Hne].
  - rewrite Hthis. destruct (decide (this ∈ new_list)).
    + exists (λ y, with_children new_list (with_parent this y)). done.
    + exists (with_children new_list). done.
  - destruct (decide (x ∈ new_list)).
    + exists (with_parent this). done.
    + exists id. split; [by destruct (σ !! x)|done].
Qed.

Lemma structure_subseq_ext (σ σ' : heap) l :
  (∀ x, is_structure_node σ' x = is_structure_node σ x) →
  structure_subseq σ' l = structure_subseq σ l.
Proof.
  intros Heq. unfold structure_subseq. apply list_filter_iff.
  intros x. by rewrite Heq.
Qed.

(** X7. The parent invariant (every child points to its owner) is kept
    by [set_children_list], whatever it answers, provided no node of the
    proposed list is a child of another node. *)
Theorem set_children_list_keeps_parents (σ : heap) this nd new_list :
  parents_ok σ →
  σ !! this = Some nd →
  is_floating (cls nd) = true →
  Forall (allocated σ) (children nd) →
  Forall (allocated σ) new_list →
  (∀ m c, m ≠ this → child_of σ m c → c ∉ new_list) →
  ∃ ok σ', set_children_list σ this new_list = Some (ok, σ') ∧ parents_ok σ'.
Proof.
  intros Hpar Hthis Hfl Hold Hnew Hdisj.
  destruct (set_children_list_cases σ this nd new_list Hthis Hfl Hold Hnew)
    as [[_ Hs]|[_ (σ' & Hs & Hl)]]; [by exists false, σ|].
  exists true, σ'. split; [done|].
  pose proof (replacement_pointwise σ σ' this nd new_list Hthis Hl) as Hf.
  intros n nd' Hn Hin. apply Forall_forall. intros c Hc.
  unfold parent_of. destruct (decide (n = this)) as [->|Hne].
  - rewrite Hl, decide_True in Hn by done. injection Hn as <-. cbn in Hc.
    rewrite Hl. destruct (decide (c = this)) as [->|].
    + by rewrite decide_True.
    + rewrite decide_True by done. rewrite Forall_forall in Hnew.
      destruct (Hnew c Hc) as [ndc ->]. done.
  - destruct (Hf n) as (f & Hfn & Hfy). rewrite Hn in Hfn.
    destruct (σ !! n) as [ndn|] eqn:Hndn; [|done]. cbn in Hfn.
    injection Hfn as ->. destruct (Hfy ndn) as (_ & _ & Hcls & Hch).
    rewrite Hcls in Hin. rewrite (Hch Hne) in Hc.
    assert (child_of σ n c) as Hchild by (by exists ndn).
    pose proof (Hdisj n c Hne Hchild) as Hout.
    specialize (Hpar n ndn Hndn Hin). rewrite Forall_forall in Hpar.
    specialize (Hpar c Hc). unfold parent_of in Hpar.
    rewrite Hl. destruct (decide (c = this)) as [->|].
    + rewrite Hthis in Hpar. rewrite decide_False by done. done.
    + by rewrite decide_False.
Qed.

(** X8. Whatever proposals are made to [set_children_list] on a node,
    and whichever of them are accepted, the structural nodes among its
    children stay the same nodes in the same order. *)
Theorem set_children_lists_keep_structure (σ : heap) this nd proposals :
  σ !! this = Some nd →
  is_floating (cls nd) = true →
  Forall (allocated σ) (children nd) →
  Forall (Forall (allocated σ)) proposals →
  ∃ σ' nd',
    set_children_lists σ this proposals = Some σ' ∧
    σ' !! this = Some nd' ∧
    structure_subseq σ' (children nd') = structure_subseq σ (children nd) ∧
    (∀ c, is_structure_node σ c = true → c ∈ children nd' ↔ c ∈ children nd).
Proof.
  intros Hthis Hfl Hold Hprops.
  cut (∃ σ' nd',
    set_children_lists σ this proposals = Some σ' ∧ σ' !! this = Some nd' ∧
    (∀ x, is_structure_node σ' x = is_structure_node σ x) ∧
    structure_subseq σ (children nd') = structure_subseq σ (children nd)).
  { intros (σ' & nd' & Hs & Hn & Hstr & Heq). exists σ', nd'.
    split; [done|]. split; [done|].
    split; [by rewrite (structure_subseq_ext σ σ')|].
    intros c Hc.
    assert (∀ l, c ∈ l ↔ c ∈ structure_subseq σ l) as Hmem
      by (intros l; unfold structure_subseq; rewrite list_elem_of_filter; tauto).
    by rewrite (Hmem (children nd')), (Hmem (children nd)), Heq. }
  revert σ nd Hthis Hfl Hold Hprops.
  induction proposals as [|new_list rest IH]; intros σ nd Hthis Hfl Hold Hprops.
  - by exists σ, nd.
  - apply Forall_cons in Hprops as [Hnew Hrest]. cbn [set_children_lists].
    destruct (set_children_list_cases σ this nd new_list Hthis Hfl Hold Hnew)
      as [[_ Hs]|[Heq (σ1 & Hs & Hl)]]; rewrite Hs; cbn.
    + by apply IH.
    + pose proof (replacement_pointwise σ σ1 this nd new_list Hthis Hl) as Hf.
      assert (∀ x, allocated σ x → allocated σ1 x) as Halloc.
      { intros x. unfold allocated. destruct (Hf x) as (f & -> & _).
        by rewrite fmap_is_Some. }
      assert (∀ x, is_structure_node σ1 x = is_structure_node σ x) as Hstr.
      { intros x. unfold is_structure_node. destruct (Hf x) as (f & -> & Hfy).
        destruct (σ !! x) as [y|]; [|done]. cbn. apply Hfy. }
      destruct (IH σ1 (with_children new_list
                         (if decide (this ∈ new_list) then with_parent this nd else nd)))
        as (σ' & nd' & Hs' & Hn' & Hstr' & Heq').
      * rewrite Hl, decide_True by done. done.
      * by destruct (decide (this ∈ new_list)).
      * cbn. eapply Forall_impl; [exact Hnew|]. intros x. apply Halloc.
      * eapply Forall_impl; [exact Hrest|]. intros l Hall.
        eapply Forall_impl; [exact Hall|]. intros x. apply Halloc.
      * exists σ', nd'. split; [done|]. split; [done|].
        split; [intros x; by rewrite Hstr', Hstr|].
        rewrite <- (structure_subseq_ext σ σ1 (children nd') Hstr), Heq'.
        cbn [children with_children].
        by rewrite (structure_subseq_ext σ σ1 _ Hstr).
Qed.

(** ** The fixed children of a root and of an output node *)

Lemma filter_all {A} (P : A → Prop) `{∀ x, Decision (P x)} (l : list A) :
  Forall P l → filter P l = l.
Proof.
  induction 1 as [|x l Hx _ IH]; [done|].
  by rewrite filter_cons, decide_True, IH.
Qed.

(** X9. The layer nodes of a newly made root cannot be dropped, added
    to or reordered through [set_children_list]: a proposal is accepted
    exactly when its structural nodes are the layer nodes in the order
    the constructor gave them, so every accepted list contains all of
    them, and the empty list is refused. *)
Theorem root_layers_protected (default_flags : Z) (σ : heap) :
  ∃ root σ' nd,
    make_root_node default_flags σ = Some (root, σ') ∧
    σ' !! root = Some nd ∧
    ∀ new_list, Forall (allocated σ') new_list →
      ∃ ok σ'',
        set_children_list σ' root new_list = Some (ok, σ'') ∧
        (ok = true ↔ structure_subseq σ' new_list = children nd) ∧
        (ok = true → ∀ c, c ∈ children nd → c ∈ new_list) ∧
        (new_list = [] → ok = false ∧ σ'' = σ').
Proof.
  destruct (make_root_node_spec default_flags σ)
    as (root & σ' & nd & ids & Hmk & _ & Hroot & Hnd & Hlen & _ & Hall & _).
  exists root, σ', nd. split; [done|]. split; [done|]. intros new_list Hnew.
  assert (children nd = reverse ids) as Hch by (by subst nd).
  assert (Forall (λ c, is_structure_node σ' c = true) (children nd)) as Hstruct.
  { rewrite Hch. apply Forall_reverse. eapply Forall_impl; [exact Hall|].
    intros c [_ Hc]. unfold is_structure_node. by rewrite Hc. }
  assert (structure_subseq σ' (children nd) = children nd) as Hsub
    by (by apply filter_all).
  assert (children nd ≠ []) as Hne.
  { rewrite Hch. intros Hnil%(f_equal length).
    rewrite length_reverse, Hlen in Hnil. done. }
  destruct (set_children_list_cases σ' root nd new_list Hroot) as [[Hdiff Hs]|[Heq (σ'' & Hs & _)]];
    [by subst nd| |done| |].
  - rewrite Hch. apply Forall_reverse. eapply Forall_impl; [exact Hall|].
    intros c [_ Hc]. by eexists.
  - exists false, σ'. split; [done|]. rewrite Hsub in Hdiff.
    split; [split; [done|intros Heq; by rewrite Heq in Hdiff]|]. split; done.
  - exists true, σ''. split; [done|]. rewrite Hsub in Heq.
    split; [done|]. split.
    + intros _ c Hc. rewrite Heq in Hc. unfold structure_subseq in Hc.
      by apply list_elem_of_filter in Hc as [_ Hc].
    + intros ->. by rewrite Heq in Hne.
Qed.

(** X10. On any heap the constructor of an output node returns a new
    non-structural node whose child list is its dynamic region followed
    by its static region, two new structural floating inner nodes without
    children whose parent is the output node; the rest of the heap is
    untouched. *)
Theorem make_output_node_regions (default_flags : Z) (σ : heap) :
  ∃ out σ' _static dynamic,
    make_output_node default_flags σ = Some (out, σ') ∧
    σ !! out = None ∧ σ !! _static = None ∧ σ !! dynamic = None ∧
    NoDup [out; _static; dynamic] ∧
    σ' !! out = Some (mk_node false None default_flags [dynamic; _static]
                        (output_node_t (Some _static) (Some dynamic))) ∧
    σ' !! _static = Some (mk_node true (Some out) default_flags []
                            floating_inner_node_t) ∧
    σ' !! dynamic = Some (mk_node true (Some out) default_flags []
                            floating_inner_node_t) ∧
    (∀ x, x ∉ [out; _static; dynamic] → σ' !! x = σ !! x).
Proof.
  unfold make_output_node, make_floating_inner_node.
  set (out_nd := new_node default_flags false (output_node_t None None)).
  set (region := new_node default_flags true floating_inner_node_t).
  destruct (alloc_fresh σ out_nd) as [Hf0 H0].
  destruct (alloc σ out_nd) as [out σ0]. cbn in Hf0, H0. subst σ0.
  destruct (alloc_fresh (<[out:=out_nd]> σ) region) as [Hf1 H1].
  destruct (alloc (<[out:=out_nd]> σ) region) as [s σ1]. cbn in Hf1, H1. subst σ1.
  destruct (alloc_fresh (<[s:=region]> (<[out:=out_nd]> σ)) region) as [Hf2 H2].
  destruct (alloc (<[s:=region]> (<[out:=out_nd]> σ)) region) as [d σ2].
  cbn in Hf2, H2. subst σ2.
  assert (s ≠ out) as Hso by (intros ->; by rewrite lookup_insert_eq in Hf1).
  assert (d ≠ s) as Hds by (intros ->; by rewrite lookup_insert_eq in Hf2).
  assert (d ≠ out) as Hdo.
  { intros ->. by rewrite lookup_insert_ne, lookup_insert_eq in Hf2. }
  rewrite lookup_insert_ne in Hf1 by done.
  rewrite !lookup_insert_ne in Hf2 by done.
  set (σ3 := alter (with_cls (output_node_t (Some s) (Some d))) out
               (<[d:=region]> (<[s:=region]> (<[out:=out_nd]> σ)))).
  assert (∀ x, σ3 !! x =
            if decide (x = out) then
              Some (with_cls (output_node_t (Some s) (Some d)) out_nd)
            else if decide (x = d) then Some region
            else if decide (x = s) then Some region
            else σ !! x) as Hσ3.
  { intros x. unfold σ3. destruct (decide (x = out)) as [->|].
    - rewrite lookup_alter_eq, !lookup_insert_ne, lookup_insert_eq by done. done.
    - rewrite lookup_alter_ne by done.
      destruct (decide (x = d)) as [->|]; [by rewrite lookup_insert_eq|].
      rewrite lookup_insert_ne by done.
      destruct (decide (x = s)) as [->|]; [by rewrite lookup_insert_eq|].
      by rewrite !lookup_insert_ne. }
  destruct (set_children_unchecked_lookup σ3 out
              (with_cls (output_node_t (Some s) (Some d)) out_nd) [d; s])
    as (σ' & Hσ' & Hl).
  { by rewrite Hσ3, decide_True. }
  { done. }
  { repeat constructor; unfold allocated; rewrite Hσ3;
      repeat (case_decide; try done); by eexists. }
  rewrite Hσ'. cbn.
  assert (out ∉ [d; s]) as Hout.
  { intros [->|[->|[]%elem_of_nil]%elem_of_cons]%elem_of_cons; done. }
  exists out, σ', s, d. split; [done|]. split; [done|]. split; [done|]. split; [done|].
  split.
  { repeat constructor; rewrite ?not_elem_of_cons, ?elem_of_nil; intuition congruence. }
  split; [by rewrite Hl, decide_True, decide_False|].
  split.
  { rewrite Hl, decide_False by done. rewrite decide_True by (right; left).
    rewrite Hσ3. by rewrite decide_False, decide_False, decide_True. }
  split.
  { rewrite Hl, decide_False by done. rewrite decide_True by left.
    rewrite Hσ3. by rewrite decide_False, decide_True. }
  intros x Hx. rewrite !not_elem_of_cons in Hx. destruct Hx as (? & ? & ? & _).
  rewrite Hl, decide_False by done.
  rewrite decide_False
    by (intros [->|[->|[]%elem_of_nil]%elem_of_cons]%elem_of_cons; done).
  rewrite Hσ3. by rewrite !decide_False.
Qed.

(** ** Who is offered a key event *)

Section key_routing.
Variable ACTIVE_KEYBOARD : Z.
Context {wlr_event_keyboard_key W : Type}.
Variable kb : keyboard_interaction_t wlr_event_keyboard_key W.

Lemma handle_key_nodes_offered nodes (ev : wlr_event_keyboard_key) (w : W) log :
  ∃ offered,
    handle_key_nodes (recording kb) nodes ev (w, log)
    = (handle_key_nodes kb nodes ev w, log ++ offered) ∧
    offered `prefix_of` nodes.
Proof.
  revert w log. induction nodes as [|n nodes IH]; intros w log.
  - exists []. cbn. rewrite app_nil_r. done.
  - cbn [handle_key_nodes]. cbn [recording handle_keyboard_key fst snd].
    destruct (handle_keyboard_key kb n ev w) as [a w2]. cbn [fst snd].
    destruct a.
    + exists [n]. split; [done|]. apply prefix_cons, prefix_nil.
    + destruct (IH w2 (log ++ [n])) as (offered & -> & Hpre).
      exists (n :: offered). split; [by rewrite <- app_assoc|].
      by apply prefix_cons.
Qed.

(** X12. After an [update()] of a tree, the nodes a key event is offered
    to form a prefix of the pre-order listing of the nodes that were
    focus-eligible at that update: a node that was not eligible, or not
    reachable from the root, is never offered the event. *)
Theorem key_events_reach_eligible_only (σ : heap) d root nd layers priv
    (w : W) (ev : wlr_event_keyboard_key) :
  σ !! root = Some nd →
  cls nd = root_node_t layers priv →
  tree_ok σ d root = true →
  ∃ σ1 w1 nd1 priv1,
    update ACTIVE_KEYBOARD kb σ d root w = Some (σ1, w1) ∧
    σ1 !! root = Some nd1 ∧
    cls nd1 = root_node_t layers priv1 ∧
    ∀ w2, ∃ offered,
      handle_key (recording kb) priv1 ev (w2, [])
      = (handle_key kb priv1 ev w2, offered) ∧
      offered `prefix_of`
        filter (λ x, focus_eligible ACTIVE_KEYBOARD σ x = true) (preorder σ d root) ∧
      (∀ x, x ∈ offered →
         focus_eligible ACTIVE_KEYBOARD σ x = true ∧ reachable σ root x).
Proof.
  intros Hn Hcls Hok.
  unfold update. rewrite Hn. cbn. rewrite Hcls. unfold update_active_nodes.
  rewrite (collect_preorder ACTIVE_KEYBOARD σ d root [] Hok). cbn.
  eexists _, _, _, _. split; [done|]. rewrite lookup_insert_eq.
  split; [done|]. split; [unfold with_priv; by rewrite Hcls|].
  intros w2. unfold handle_key. cbn [active_keyboard_nodes].
  destruct (handle_key_nodes_offered
              (filter (λ x, focus_eligible ACTIVE_KEYBOARD σ x = true) (preorder σ d root))
              ev w2 []) as (offered & Hrec & Hpre).
  exists offered. split; [done|]. split; [done|].
  intros x Hx. destruct Hpre as [k Hk].
  assert (x ∈ filter (λ x, focus_eligible ACTIVE_KEYBOARD σ x = true) (preorder σ d root))
    as Hin by (rewrite Hk; apply elem_of_app; by left).
  apply list_elem_of_filter in Hin as [He Hin]. split; [done|].
  by apply preorder_elem_reachable in Hin.
Qed.
End key_routing.

(** ** Construction keeps the parent invariant *)

(** X11. Making a root on a heap that satisfies the parent invariant
    gives a heap that satisfies it, in which the root is the top of a
    tree of depth two whose collection pass and hit test return. *)
Theorem make_root_node_keeps_parents (default_flags : Z) (σ : heap) :
  parents_ok σ →
  ∃ root σ',
    make_root_node default_flags σ = Some (root, σ') ∧
    parents_ok σ' ∧
    tree_ok σ' 2 root = true ∧
    only_inner σ' 2 root = true.
Proof.
  intros Hpar.
  destruct (make_root_node_spec default_flags σ)
    as (root & σ' & nd & ids & Hmk & Hfresh & Hroot & Hnd & Hlen & Hdup & Hall & Hout).
  exists root, σ'. split; [done|].
  assert (∀ c, c ∈ ids →
    σ' !! c = Some (mk_node true (Some root) default_flags [] floating_inner_node_t))
    as Hlayer.
  { intros c Hc. rewrite Forall_forall in Hall. by destruct (Hall c Hc) as [_ ->]. }
  assert (only_inner σ' 2 root = true) as Honly.
  { cbn. rewrite Hroot. subst nd. cbn. apply forallb_forall.
    intros c Hc%list_elem_of_In. rewrite elem_of_reverse in Hc.
    by rewrite (Hlayer c Hc). }
  split; [|split; [by apply only_inner_tree_ok|done]].
  intros n ndn Hn Hin. apply Forall_forall. intros c Hc. unfold parent_of.
  destruct (decide (n = root)) as [->|Hne].
  - rewrite Hroot in Hn. injection Hn as <-. subst nd. cbn in Hc.
    rewrite elem_of_reverse in Hc. by rewrite (Hlayer c Hc).
  - destruct (decide (n ∈ ids)) as [Hids|Hids].
    + rewrite (Hlayer n Hids) in Hn. injection Hn as <-. by apply elem_of_nil in Hc.
    + assert (n ∉ root :: ids) as Hnew by (by rewrite not_elem_of_cons).
      rewrite (Hout n Hnew) in Hn.
      specialize (Hpar n ndn Hn Hin). rewrite Forall_forall in Hpar.
      specialize (Hpar c Hc). unfold parent_of in Hpar.
      destruct (σ !! c) as [ndc|] eqn:Hndc; [|done].
      assert (c ∉ root :: ids) as Hc'.
      { intros [->|Hcin]%elem_of_cons; [congruence|].
        rewrite Forall_forall in Hall. destruct (Hall c Hcin) as [Hnone _]. congruence. }
      by rewrite (Hout c Hc'), Hndc.
Qed.

(** ** The further properties at work on the scenes *)

Import Scenario Scenario2.

Example build_dynamic_ids : build_dynamic = Some (dynamic_node, dynamic_scene).
Proof. vm_compute. reflexivity. Qed.

Lemma visit_trace_in_preorder_witness :
  ∃ r v' t,
    visit (tracing (collect_active_nodes_t ACTIVE_KEYBOARD)) views_scene 3 root ([], [])
    = Some (r, (v', root :: t)) ∧
    (root :: t) `sublist_of` preorder views_scene 3 root.
Proof.
  destruct (visit_trace_in_preorder (collect_active_nodes_t ACTIVE_KEYBOARD)
              views_scene 3 root [] eq_refl) as (r & v' & t & Hv & Hsub & _).
  by exists r, v', t.
Defined.

Lemma visit_trace_prefix_of_preorder_witness :
  ∃ r v' t,
    visit (tracing (collect_active_nodes_t ACTIVE_KEYBOARD)) views_scene 3 root ([], [])
    = Some (r, (v', t)) ∧
    (r ≠ STOP → t = preorder views_scene 3 root).
Proof.
  destruct (visit_trace_prefix_of_preorder (collect_active_nodes_t ACTIVE_KEYBOARD)
              views_scene 3 root []) as (r & v' & t & Hv & _ & Hfull).
  - intros x nd w. cbn. discriminate.
  - reflexivity.
  - by exists r, v', t.
Defined.

Lemma collect_cycle_never_returns_witness :
  visit (collect_active_nodes_t ACTIVE_KEYBOARD) looped_scene 100 root [] = None.
Proof.
  apply (collect_cycle_never_returns ACTIVE_KEYBOARD looped_scene root dynamic_node).
  - apply (rtc_l _ _ workspace); [|apply (rtc_l _ _ dynamic_node); [|apply rtc_refl]].
    + eexists. split; [reflexivity|]. split; [reflexivity|compute_done].
    + eexists. split; [reflexivity|]. split; [reflexivity|compute_done].
  - apply tc_once. eexists. split; [reflexivity|]. split; [reflexivity|compute_done].
Defined.

Lemma set_children_list_accepts_self_witness :
  ∃ σ',
    set_children_list dynamic_scene dynamic_node [dynamic_node] = Some (true, σ') ∧
    parent_of σ' dynamic_node = Some (Some dynamic_node).
Proof.
  destruct (set_children_list_accepts_self ACTIVE_KEYBOARD dynamic_scene dynamic_node
              _ [dynamic_node] eq_refl eq_refl)
    as (σ' & Hs & _ & Hp & _).
  - compute_done.
  - compute_done.
  - reflexivity.
  - compute_done.
  - by exists σ'.
Defined.

Lemma find_node_at_first_in_preorder_witness :
  find_node_at (λ n _ (_ : Z * Z), if decide (n = view_b) then Some n else None)
    views_scene 3 root (3, 4)%Z
  = Some (Some view_b).
Proof.
  rewrite (find_node_at_first_in_preorder
             (λ n _ (_ : Z * Z), if decide (n = view_b) then Some n else None)
             views_scene 3 root (3, 4)%Z eq_refl).
  reflexivity.
Defined.


Lemma set_children_list_keeps_parents_witness :
  ∃ ok σ',
    set_children_list views_scene workspace [view_b] = Some (ok, σ') ∧ parents_ok σ'.
Proof.
  assert (parents_ok views_scene) as Hpar by compute_done.
  apply (set_children_list_keeps_parents views_scene workspace _ [view_b] Hpar
           eq_refl eq_refl).
  - compute_done.
  - compute_done.
  - intros m c Hm (ndm & Hndm & Hin & Hc) ->%list_elem_of_singleton.
    specialize (Hpar m ndm Hndm Hin). rewrite Forall_forall in Hpar.
    specialize (Hpar _ Hc). vm_compute in Hpar. injection Hpar as <-.
    by apply Hm.
Defined.

Lemma set_children_lists_keep_structure_witness :
  ∃ σ' nd',
    set_children_lists views_scene root
      [[]; [9; 8; 7; 6; 5; 4; 3; 2; view_a]; [2; 3; 4; 5; 6; 7; 8; 9; view_a]]%positive
    = Some σ' ∧
    σ' !! root = Some nd' ∧
    structure_subseq σ' (children nd') = [2; 3; 4; 5; 6; 7; 8; 9]%positive.
Proof.
  destruct (set_children_lists_keep_structure views_scene root _
    [[]; [9; 8; 7; 6; 5; 4; 3; 2; view_a]; [2; 3; 4; 5; 6; 7; 8; 9; view_a]]%positive
    eq_refl eq_refl) as (σ' & nd' & Hs & Hn & Heq & _).
  - compute_done.
  - compute_done.
  - exists σ', nd'. split; [exact Hs|]. split; [exact Hn|].
    rewrite Heq. reflexivity.
Defined.

Lemma make_root_node_keeps_parents_witness :
  ∃ root σ', make_root_node 0 (∅ : heap) = Some (root, σ') ∧ parents_ok σ'.
Proof.
  destruct (make_root_node_keeps_parents 0 (∅ : heap)) as (r & σ' & Hmk & Hpar & _).
  - compute_done.
  - by exists r, σ'.
Defined.

Lemma key_events_reach_eligible_only_witness :
  ∃ σ1 w1 nd1 priv1,
    update ACTIVE_KEYBOARD (call_log unit) views_scene 3 root [] = Some (σ1, w1) ∧
    σ1 !! root = Some nd1 ∧
    ∃ offered,
      handle_key (recording (call_log unit)) priv1 tt ([], []) = ([], offered) ∧
      ∀ x, x ∈ offered → focus_eligible ACTIVE_KEYBOARD views_scene x = true.
Proof.
  destruct (key_events_reach_eligible_only ACTIVE_KEYBOARD (call_log unit) views_scene 3
              root _ _ _ [] tt eq_refl eq_refl eq_refl)
    as (σ1 & w1 & nd1 & priv1 & Hup & Hn & _ & Hkey).
  exists σ1, w1, nd1, priv1. split; [exact Hup|]. split; [exact Hn|].
  destruct (Hkey []) as (offered & Hh & _ & Hel).
  exists offered. split; [|intros x Hx; by apply Hel].
  rewrite Hh. f_equal. unfold handle_key.
  generalize (active_keyboard_nodes priv1). intros l. by induction l.
Defined.

End SceneExtra.

(** * Further properties of the IPC plugin *)

Module IpcExtra.
Import Ipc IpcSpec IpcInput IpcNotions.

Local Open Scope string_scope.

Section parse_props.
Variable libevdev_event_code_from_name : string → Z.
Abbreviation parse := (parse_key libevdev_event_code_from_name).

(** X13. [parse_key] never gives a key whose code is [-1], and it
    refuses every combination shorter than four characters, whatever
    libevdev would make of it. *)
Theorem parse_key_refusals (data : json) :
  (∀ key, parse data = inl key → code key ≠ (-1)%Z) ∧
  (∀ combo, json_at "combo" data = Some (JStr combo) →
     (String.length combo < 4)%nat →
     parse data = inr "Missing or wrong json type for `combo`!").
Proof.
  split.
  - intros key. unfold parse_key.
    destruct (_ || _); [done|]. destruct (Nat.ltb _ _); [done|].
    destruct (if String.eqb _ _ then _ else _) as [m combo].
    destruct (Z.eqb_spec (libevdev_event_code_from_name (c_str combo)) (-1)); [done|].
    by intros [= <-].
  - intros combo Hc Hlen. unfold parse_key. rewrite Hc. cbn [is_string get_string].
    destruct (_ || _); [done|].
    by rewrite (proj2 (Nat.ltb_lt _ _) Hlen).
Qed.

Lemma substring_0_0 s : String.substring 0 0 s = "".
Proof. by destruct s. Qed.

Lemma substring_all s : String.substring 0 (String.length s) s = s.
Proof. induction s as [|c s IH]; [done|]. cbn. by rewrite IH. Qed.

Lemma substring_super_prefix name : String.substring 0 2 ("S-" ++ name) = "S-".
Proof. simpl. by rewrite substring_0_0. Qed.

Lemma substring_super_rest name :
  String.substring 2 (String.length name) ("S-" ++ name) = name.
Proof. simpl. apply substring_all. Qed.

(** X14. For a key name of at least four characters that libevdev knows
    and that does not itself start with "S-", the name alone parses to
    that key without modifier, and the name after "S-" parses to the same
    key with the modifier set. *)
Theorem parse_key_super_prefix (name : string) :
  (4 ≤ String.length name)%nat →
  String.substring 0 2 name ≠ "S-" →
  libevdev_event_code_from_name (c_str name) ≠ (-1)%Z →
  parse (combo_data name)
  = inl (mk_key false (libevdev_event_code_from_name (c_str name))) ∧
  parse (combo_data ("S-" ++ name))
  = inl (mk_key true (libevdev_event_code_from_name (c_str name))).
Proof.
  intros Hlen Hpre Hcode. split.
  - unfold parse_key, combo_data. cbn [json_count json_at json_get].
    rewrite decide_True by done. cbn [Nat.eqb negb orb is_string get_string].
    rewrite (proj2 (Nat.ltb_ge _ _) Hlen).
    rewrite (proj2 (String.eqb_neq _ _) Hpre).
    by rewrite (proj2 (Z.eqb_neq _ _) Hcode).
  - unfold parse_key, combo_data. cbn [json_count json_at json_get].
    rewrite decide_True by done. cbn [Nat.eqb negb orb is_string get_string].
    assert (String.length ("S-" ++ name) = S (S (String.length name))) as Hl by done.
    rewrite Hl. rewrite (proj2 (Nat.ltb_ge _ _)) by lia.
    rewrite substring_super_prefix, String.eqb_refl.
    replace (S (S (String.length name)) - 2) with (String.length name) by lia.
    rewrite substring_super_rest.
    by rewrite (proj2 (Z.eqb_neq _ _) Hcode).
Qed.
End parse_props.

Section feed_props.
Variable libevdev_event_code_from_name : string → Z.
Variable KEY_LEFTMETA : Z.
Variable get_current_time : list backend_call → Z.

Abbreviation parse := (parse_key libevdev_event_code_from_name).
Abbreviation key := (do_key get_current_time).
Abbreviation feed_k :=
  (feed_key libevdev_event_code_from_name KEY_LEFTMETA get_current_time).
Abbreviation feed_b :=
  (feed_button libevdev_event_code_from_name KEY_LEFTMETA get_current_time).

(** X15. [feed_key] makes no call when the combination does not parse
    and answers with the parser's message. When it parses, the calls it
    adds are key presses followed by the releases of the same keys in
    reverse order: the key alone, or the left meta key around it when
    the modifier is set. *)
Theorem feed_key_press_release (data : json) (calls : list backend_call) :
  match parse data with
  | inr msg => feed_k data calls = (get_error msg, calls)
  | inl k =>
      let keys := ((if modifier k then [KEY_LEFTMETA] else []) ++ [code k])%list in
      ∃ new,
        feed_k data calls = (get_ok, (calls ++ new)%list) ∧
        untimed <$> new
        = ((press_key <$> keys) ++ (release_key <$> reverse keys))%list
  end.
Proof.
  unfold feed_key. destruct (parse data) as [k|msg]; [|done].
  destruct (modifier k); cbn [app]; unfold do_key; eexists;
    (split; [by rewrite <- ?app_assoc|done]).
Qed.

Lemma json_get_set_other key other value fields :
  key ≠ other →
  json_get key (json_set other value fields) = json_get key fields.
Proof.
  intros Hne. unfold json_set. cbn [json_get fst].
  rewrite decide_False by done.
  induction fields as [|[k v] fields IH]; [done|].
  rewrite filter_cons. cbn [fst json_get].
  destruct (decide (k ≠ other)) as [Hk|Hk]; cbn [json_get].
  - destruct (decide (k = key)); [done|apply IH].
  - rewrite decide_False; [apply IH|]. apply dec_stable in Hk. congruence.
Qed.

Lemma parse_with_mode mode fields :
  parse (with_mode mode fields) = parse (JObj fields).
Proof.
  unfold parse_key, with_mode, json_count, json_at.
  by rewrite json_get_set_other.
Qed.

Lemma mode_with_mode mode fields :
  json_count "mode" (with_mode mode fields) = 1 ∧
  json_at "mode" (with_mode mode fields) = Some (JStr mode).
Proof.
  unfold with_mode, json_count, json_at, json_set. cbn [json_get].
  by rewrite decide_True.
Qed.

(** X16. The mode "full" of [feed_button] does what the mode "press"
    followed by the mode "release" does: the same answer and, clock
    readings aside, the same calls in the same order. *)
Theorem feed_button_full_is_press_release (fields : list (string * json))
    (calls : list backend_call) :
  let full := feed_b (with_mode "full" fields) calls in
  let press := feed_b (with_mode "press" fields) calls in
  let release := feed_b (with_mode "release" fields) press.2 in
  full.1 = release.1 ∧ full.1 = press.1 ∧
  untimed <$> full.2 = untimed <$> release.2.
Proof.
  unfold feed_button. rewrite !parse_with_mode.
  destruct (parse (JObj fields)) as [k|msg]; [|done].
  destruct (mode_with_mode "full" fields) as [-> ->].
  destruct (mode_with_mode "press" fields) as [-> ->].
  destruct (mode_with_mode "release" fields) as [-> ->].
  cbn [Nat.eqb negb orb is_string get_string]. done.
Qed.

(** X17. A mode that is a string other than "press", "release" and
    "full" makes [feed_button] answer ok without making any call. *)
Theorem feed_button_unknown_mode (data : json) (calls : list backend_call) k mode :
  parse data = inl k →
  json_at "mode" data = Some (JStr mode) →
  mode ∉ ["press"; "release"; "full"] →
  feed_b data calls = (get_ok, calls).
Proof.
  intros Hk Hm Hmode. unfold feed_button. rewrite Hk.
  assert (json_count "mode" data = 1) as ->.
  { unfold json_count. unfold json_at in Hm. destruct data; try done. by rewrite Hm. }
  rewrite Hm. cbn [Nat.eqb negb orb is_string get_string].
  rewrite !not_elem_of_cons in Hmode. destruct Hmode as (Hp & Hr & Hf & _).
  rewrite (proj2 (String.eqb_neq _ _) Hp), (proj2 (String.eqb_neq _ _) Hr),
    (proj2 (String.eqb_neq _ _) Hf). done.
Qed.

(** X18. [feed_button] refuses a request whose combination does not
    parse with the parser's message, and one without a string ["mode"]
    with "No mode specified"; in both cases no call is made. *)
Theorem feed_button_refusals (data : json) (calls : list backend_call) :
  (∀ msg, parse data = inr msg → feed_b data calls = (get_error msg, calls)) ∧
  (∀ k, parse data = inl k → is_string (json_at "mode" data) = false →
     feed_b data calls = (get_error "No mode specified", calls)).
Proof.
  split.
  - intros msg Hp. unfold feed_button. by rewrite Hp.
  - intros k Hp Hm. unfold feed_button. rewrite Hp, Hm.
    by rewrite orb_true_r.
Qed.
End feed_props.

Section wayland_props.
Context {wlr_backend : Type}.
Variable wlr_backend_is_wl : wlr_backend → bool.

Lemma locate_last (backends : list wlr_backend) acc :
  foldl (locate_wayland_backend wlr_backend_is_wl) acc backends
  = match last (filter (λ b, wlr_backend_is_wl b = true) backends) with
    | Some b => Some b
    | None => acc
    end.
Proof.
  revert acc. induction backends as [|b backends IH]; intros acc; [done|].
  cbn [foldl]. rewrite IH, filter_cons. unfold locate_wayland_backend.
  destruct (wlr_backend_is_wl b) eqn:Hb.
  - rewrite decide_True by done.
    destruct (filter _ backends) as [|b' l] eqn:Hf; [done|].
    change (last (b :: b' :: l)) with (last (b' :: l)).
    destruct (last (b' :: l)) eqn:Hl; [done|]. by apply last_None in Hl.
  - rewrite decide_False by done. done.
Qed.

(** X19. [create_wayland_output] answers with an error, creating no
    output, exactly when none of the backends is a wayland backend;
    otherwise it answers ok and creates the output on the wayland backend
    that comes last among the backends. *)
Theorem create_wayland_output_last (backends : list wlr_backend) :
  let r := create_wayland_output wlr_backend_is_wl backends in
  r.2 = last (filter (λ b, wlr_backend_is_wl b = true) backends) ∧
  (r.1 = get_ok ↔ ∃ b, b ∈ backends ∧ wlr_backend_is_wl b = true) ∧
  (r.1 = get_error "Wayfire is not running in nested wayland mode!" ↔
     Forall (λ b, wlr_backend_is_wl b = false) backends) ∧
  (∀ b, r.2 = Some b → b ∈ backends ∧ wlr_backend_is_wl b = true).
Proof.
  unfold create_wayland_output. rewrite locate_last.
  destruct (last (filter (λ b, wlr_backend_is_wl b = true) backends)) as [b|] eqn:Hlast.
  - assert (b ∈ backends ∧ wlr_backend_is_wl b = true) as Hb.
    { apply last_Some in Hlast as [l Hl].
      assert (b ∈ filter (λ b, wlr_backend_is_wl b = true) backends) as Hin
        by (rewrite Hl; apply elem_of_app; right; left).
      apply list_elem_of_filter in Hin. tauto. }
    cbn. split; [done|]. split; [split; [by exists b|done]|].
    split; [|by intros ? [= <-]]. split; [done|].
    intros Hall. rewrite Forall_forall in Hall. destruct Hb as [Hin Hwl].
    rewrite (Hall b Hin) in Hwl. done.
  - apply last_None in Hlast. cbn. split; [done|].
    assert (Forall (λ b, wlr_backend_is_wl b = false) backends) as Hall.
    { apply Forall_forall. intros b Hb.
      destruct (wlr_backend_is_wl b) eqn:Hwl; [|done].
      assert (b ∈ filter (λ b, wlr_backend_is_wl b = true) backends) as Hin
        by (by apply list_elem_of_filter).
      rewrite Hlast in Hin. by apply elem_of_nil in Hin. }
    split; [split; [done|]|split; [done|done]].
    intros (b & Hb & Hwl). rewrite Forall_forall in Hall.
    rewrite (Hall b Hb) in Hwl. done.
Qed.
End wayland_props.

(** X20. [geometry_to_json] loses nothing: two geometries have the same
    json exactly when they are the same geometry. *)
Theorem geometry_to_json_inj (g1 g2 : geometry_t) :
  geometry_to_json g1 = geometry_to_json g2 ↔ g1 = g2.
Proof.
  split; [|by intros ->].
  destruct g1, g2. unfold geometry_to_json. vm_compute.
  intros [= -> -> -> ->]. done.
Qed.

(** ** The properties at work on small requests *)

Lemma parse_key_super_prefix_witness :
  parse_key one_key (combo_data "KEY_A") = inl (mk_key false 30) ∧
  parse_key one_key (combo_data "S-KEY_A") = inl (mk_key true 30).
Proof.
  apply (parse_key_super_prefix one_key "KEY_A").
  - cbn. lia.
  - discriminate.
  - discriminate.
Defined.

Lemma feed_button_unknown_mode_witness :
  feed_button one_key 125 (λ _, 0%Z)
    (JObj [("combo", JStr "KEY_A"); ("mode", JStr "hold")]) []
  = (get_ok, []).
Proof.
  apply (feed_button_unknown_mode one_key 125 (λ _, 0%Z)
           (JObj [("combo", JStr "KEY_A"); ("mode", JStr "hold")]) []
           (mk_key false 30) "hold").
  - reflexivity.
  - reflexivity.
  - compute_done.
Defined.

End IpcExtra.
